(** * INFRAstudio SDK: chain configuration, chain lifecycle and sequencer

    A shallow embedding of the TypeScript sources

      - [src/types/chain.ts]     (ChainConfig, DeploymentOptions, ChainStatus)
      - [src/core/validator.ts]  (the zod schemas and the two validators)
      - [src/core/chain.ts]      (class Chain)
      - [src/core/sequencer.ts]  (class Sequencer, which [src/index.ts]
                                  exports from that path)

    then of the bridge message queue and the atomic transaction
    coordinator, which the repository describes but does not implement,
    followed by the properties of the specification that concern them.

    Conventions of the embedding.

      - A value that reaches zod at run time is an arbitrary JavaScript
        value: TypeScript's static types are erased, and the schemas exist
        precisely to reject ill-shaped values.  Configurations and
        deployment options are therefore [JSValue]s, objects being finite
        maps from property names to values.
      - A JavaScript [number] is a rational, [NaN] or a signed infinity.
        Every IEEE double is a rational; the schemas only compare numbers
        with constants, and no double lies strictly between the rational
        1/10 and the double nearest to it, so comparing against the
        rational bound decides exactly what the comparison of doubles does.
      - An object is the finite map of its own enumerable properties, and
        reading a property reads an own one.  Objects that take properties
        from a prototype are outside the model; a property of the code
        that holds of plain objects only says so ([plain]).
      - A string is a sequence of code units, [String.length] its [length].
      - A method of a class is a function from the receiver's state to a
        completion ([Return] or [Throw]) and the receiver's new state.  An
        [async] method runs its body synchronously up to its first [await];
        a rejected promise is the [Throw] completion. *)

From Stdlib Require Import QArith.
From stdpp Require Import base strings list gmap pretty.

#[local] Set Warnings "-register-all".
#[local] Open Scope string_scope.
#[local] Open Scope list_scope.

(** ** JavaScript values *)

Inductive number : Type :=
  | Finite (q : Q)
  | NaN
  | Infinity (positive_sign : bool).

Inductive JSValue : Type :=
  | JUndefined
  | JNull
  | JBoolean (b : bool)
  | JNumber (n : number)
  | JBigInt (z : Z)
  | JString (s : string)
  | JArray (items : list JSValue)
  | JObject (props : gmap string JSValue).

(** [a < b] on numbers; every comparison with [NaN] is false. *)
Definition number_ltb (a b : number) : bool :=
  match a, b with
  | NaN, _ | _, NaN => false
  | Finite x, Finite y => negb (Qle_bool y x)
  | Finite _, Infinity sign => sign
  | Infinity sign, Finite _ => negb sign
  | Infinity sa, Infinity sb => negb sa && sb
  end.

(** [o[k]] for a plain object: the property's value, [undefined] when the
    object has no such property. *)
Definition get (props : gmap string JSValue) (k : string) : JSValue :=
  default JUndefined (props !! k).

(** [v.k] for any value that is not [null] or [undefined]; only plain
    objects carry named properties here. *)
Definition field (v : JSValue) (k : string) : JSValue :=
  match v with
  | JObject props => get props k
  | _ => JUndefined
  end.

(** The own enumerable properties that a spread [...v] copies: those of an
    object, the indexed elements of an array, the indexed code units of a
    string, and nothing for the other primitives, [null] and [undefined]. *)
Definition indexed {A} (f : A -> JSValue) (l : list A) : gmap string JSValue :=
  list_to_map (imap (fun i x => (pretty i, f x)) l).

Definition own_props (v : JSValue) : gmap string JSValue :=
  match v with
  | JObject props => props
  | JArray items => indexed id items
  | JString s => indexed (fun c => JString (String c EmptyString)) (String.list_ascii_of_string s)
  | _ => ∅
  end.

(** [{ ...a, ...b }]: the properties of [a], then those of [b], a property
    of [b] replacing the property of [a] with the same name. *)
Definition spread2 (a b : JSValue) : JSValue :=
  JObject (own_props b ∪ own_props a).

(** ** Completions *)

Inductive exn : Type :=
  | Error (message : string)
  | ZodError.

Inductive completion (A : Type) : Type :=
  | Return (a : A)
  | Throw (e : exn).
Arguments Return {A} a.
Arguments Throw {A} e.

(** ** The fragment of zod the validators use *)

Inductive StringCheck : Type :=
  | str_min (n : nat)
  | str_max (n : nat).

Inductive NumberCheck : Type :=
  | num_min (q : Q)
  | num_max (q : Q).

Inductive ZodType : Type :=
  | z_string (checks : list StringCheck)
  | z_number (checks : list NumberCheck)
  | z_boolean
  | z_enum (values : list string)
  | z_object (shape : list (string * ZodType)).

(** A check passes unless the input is too small or too big; both bounds
    are inclusive. *)
Definition string_check (s : string) (c : StringCheck) : bool :=
  match c with
  | str_min n => negb (String.length s <? n)%nat
  | str_max n => negb (n <? String.length s)%nat
  end.

Definition number_check (x : number) (c : NumberCheck) : bool :=
  match c with
  | num_min q => negb (number_ltb x (Finite q))
  | num_max q => negb (number_ltb (Finite q) x)
  end.

(** Parsing the properties of an object schema: every key of the shape is
    read from the input and parsed by its own schema; the output holds the
    keys of the shape only (unknown keys are stripped). *)
Definition parse_shape (parse : ZodType -> JSValue -> completion JSValue)
    (props : gmap string JSValue) :
    list (string * ZodType) -> completion (gmap string JSValue) :=
  fix go shape :=
    match shape with
    | [] => Return ∅
    | kt :: rest =>
        match parse (snd kt) (get props (fst kt)) with
        | Throw e => Throw e
        | Return v =>
            match go rest with
            | Throw e => Throw e
            | Return out => Return (<[fst kt := v]> out)
            end
        end
    end.

(** [schema.parse(v)]: the parsed value, or a thrown [ZodError]. *)
Fixpoint parse (t : ZodType) (v : JSValue) : completion JSValue :=
  match t with
  | z_string checks =>
      match v with
      | JString s => if forallb (string_check s) checks then Return v else Throw ZodError
      | _ => Throw ZodError
      end
  | z_number checks =>
      match v with
      | JNumber NaN => Throw ZodError
      | JNumber x => if forallb (number_check x) checks then Return v else Throw ZodError
      | _ => Throw ZodError
      end
  | z_boolean =>
      match v with
      | JBoolean _ => Return v
      | _ => Throw ZodError
      end
  | z_enum values =>
      match v with
      | JString s => if bool_decide (s ∈ values) then Return v else Throw ZodError
      | _ => Throw ZodError
      end
  | z_object shape =>
      match v with
      | JObject props =>
          match parse_shape (fun t' v' => parse t' v') props shape with
          | Return out => Return (JObject out)
          | Throw e => Throw e
          end
      | _ => Throw ZodError
      end
  end.

(** ** src/core/validator.ts *)

Definition chainConfigSchema : ZodType :=
  z_object
    [ ("name", z_string [str_min 1; str_max 50]);
      ("executionLayer", z_enum ["ZK"; "Optimistic"]);
      ("baseChain", z_enum ["Ethereum"; "Solana"; "Binance"]);
      ("sequencer", z_enum ["Decentralized"; "Centralized"; "Hybrid"]);
      ("tps", z_number [num_min 1000; num_max 100000]);
      ("features",
        z_object
          [ ("privacy", z_boolean);
            ("interop", z_boolean);
            ("dataAvailability", z_boolean) ]);
      ("consensus",
        z_object
          [ ("algorithm", z_string []);
            ("blockTime", z_number [num_min 0.1; num_max 60]);
            ("validators", z_number [num_min 1; num_max 1000]) ]) ].

Definition deploymentOptionsSchema : ZodType :=
  z_object
    [ ("environment", z_enum ["testnet"; "mainnet"]);
      ("autoScale", z_boolean);
      ("monitoring", z_boolean) ].

(** [try { schema.parse(x); return true } catch { return false }]; the
    [catch] branch also writes the error to the console, which is no part
    of the state modelled here. *)
Definition validateChainConfig (config : JSValue) : bool :=
  match parse chainConfigSchema config with
  | Return _ => true
  | Throw _ => false
  end.

Definition validateDeploymentOptions (options : JSValue) : bool :=
  match parse deploymentOptionsSchema options with
  | Return _ => true
  | Throw _ => false
  end.

(** The configuration of the example in [src/index.ts]. *)
Definition example_config : JSValue :=
  JObject (list_to_map
    [ ("name", JString "MyL2Chain");
      ("executionLayer", JString "ZK");
      ("baseChain", JString "Ethereum");
      ("sequencer", JString "Decentralized");
      ("tps", JNumber (Finite 50000));
      ("features", JObject (list_to_map
         [ ("privacy", JBoolean true);
           ("interop", JBoolean true);
           ("dataAvailability", JBoolean true) ]));
      ("consensus", JObject (list_to_map
         [ ("algorithm", JString "PoS");
           ("blockTime", JNumber (Finite 2));
           ("validators", JNumber (Finite 100)) ])) ]).

Definition example_options : JSValue :=
  JObject (list_to_map
    [ ("environment", JString "testnet");
      ("autoScale", JBoolean true);
      ("monitoring", JBoolean true) ]).

(** ** src/types/chain.ts *)

Inductive BaseChain : Type := Ethereum | Solana | Binance.

(** [ChainStatus]; its [status] field holds a string at run time. *)
Module ChainStatus.
Record t : Type := mk {
  status : string;
  blockHeight : number;
  tps : number;
  latency : number;
  uptime : number
}.

(** [s.status = v], an assignment to the one field the class mutates. *)
Definition set_status (v : string) (s : t) : t :=
  mk v (blockHeight s) (tps s) (latency s) (uptime s).
End ChainStatus.

(** ** src/core/chain.ts *)

(** The private fields of [Chain].  [deploymentOptions] is declared
    optional and stays unset until the first successful [deploy]. *)
Record Chain : Type := mkChain {
  config : JSValue;
  deploymentOptions : option JSValue;
  status : ChainStatus.t
}.

(** [new Chain(config)] *)
Definition Chain_new (cfg : JSValue) : completion Chain :=
  if negb (validateChainConfig cfg) then Throw (Error "Invalid chain configuration")
  else
    Return
      {| config := cfg;
         deploymentOptions := None;
         status :=
           ChainStatus.mk "inactive" (Finite 0) (Finite 0) (Finite 0) (Finite 0) |}.

(** [deploy] awaits a timer in the middle of its body, so it runs in two
    steps.  [deploy_begin] is the part before the [await]: it runs when
    [deploy] is called. *)
Definition deploy_begin (options : JSValue) (c : Chain) : completion unit * Chain :=
  if negb (validateDeploymentOptions options) then
    (Throw (Error "Invalid deployment options"), c)
  else
    (Return tt,
     {| config := config c;
        deploymentOptions := Some options;
        status := ChainStatus.set_status "deploying" (status c) |}).

(** [deploy_settle awaited] is the part after the [await], inside the
    [try]: it runs when the awaited promise has settled as [awaited]. *)
Definition deploy_settle (awaited : completion unit) (c : Chain) : completion unit * Chain :=
  match awaited with
  | Return _ =>
      (Return tt,
       {| config := config c;
          deploymentOptions := deploymentOptions c;
          status := ChainStatus.set_status "active" (status c) |})
  | Throw error =>
      (Throw error,
       {| config := config c;
          deploymentOptions := deploymentOptions c;
          status := ChainStatus.set_status "error" (status c) |})
  end.

(** [new Promise(resolve => setTimeout(resolve, 2000))] is fulfilled when
    the timer fires and is never rejected: with the deployment logic as it
    stands, [deploy_settle] only ever sees [Return].  The transition system
    below admits both outcomes, so that the [catch] branch is covered. *)
Definition deployment_timer : completion unit := Return tt.

(** A whole call of [deploy] with nothing else running in between. *)
Definition deploy (options : JSValue) (c : Chain) : completion unit * Chain :=
  match deploy_begin options c with
  | (Throw e, c') => (Throw e, c')
  | (Return _, c') => deploy_settle deployment_timer c'
  end.

(** [getStatus] hands out the status object itself, not a copy: whoever
    keeps the result reads, at any later time, the status of the chain's
    state at that time. *)
Definition getStatus (c : Chain) : completion ChainStatus.t * Chain :=
  (Return (status c), c).

Definition getConfig (c : Chain) : JSValue * Chain :=
  (config c, c).

Definition updateConfig (newConfig : JSValue) (c : Chain) : completion unit * Chain :=
  let updatedConfig := spread2 (config c) newConfig in
  if negb (validateChainConfig updatedConfig) then
    (Throw (Error "Invalid configuration update"), c)
  else
    (Return tt,
     {| config := updatedConfig;
        deploymentOptions := deploymentOptions c;
        status := status c |}).

(** *** The chain as a transition system

    Callers invoke the methods in any order, and a call of [deploy] that
    is suspended at its [await] lets other calls run before it resumes.
    [pending] counts the suspended calls of [deploy]. *)

Inductive ChainOp : Type :=
  | OpDeployCall (options : JSValue)
  | OpDeployResume (awaited : completion unit)
  | OpGetStatus
  | OpGetConfig
  | OpUpdateConfig (newConfig : JSValue).

Record ChainSys : Type := mkSys { chain_of : Chain; pending : nat }.

Inductive step : ChainSys -> ChainOp -> ChainSys -> Prop :=
  | step_deploy_rejected options c n c' e :
      deploy_begin options c = (Throw e, c') ->
      step (mkSys c n) (OpDeployCall options) (mkSys c' n)
  | step_deploy_suspended options c n c' :
      deploy_begin options c = (Return tt, c') ->
      step (mkSys c n) (OpDeployCall options) (mkSys c' (S n))
  | step_deploy_resumed awaited c n :
      step (mkSys c (S n)) (OpDeployResume awaited)
           (mkSys (snd (deploy_settle awaited c)) n)
  | step_getStatus c n :
      step (mkSys c n) OpGetStatus (mkSys (snd (getStatus c)) n)
  | step_getConfig c n :
      step (mkSys c n) OpGetConfig (mkSys (snd (getConfig c)) n)
  | step_updateConfig newConfig c n :
      step (mkSys c n) (OpUpdateConfig newConfig)
           (mkSys (snd (updateConfig newConfig c)) n).

(** The states a chain built by the constructor can be found in. *)
Inductive reachable (c0 : Chain) : ChainSys -> Prop :=
  | reachable_new : reachable c0 (mkSys c0 0)
  | reachable_step s op s' : reachable c0 s -> step s op s' -> reachable c0 s'.

Definition is_deploy_op (op : ChainOp) : bool :=
  match op with
  | OpDeployCall _ | OpDeployResume _ => true
  | _ => false
  end.

(** The four values of the [status] field in [ChainStatus]. *)
Definition status_values : list string := ["active"; "inactive"; "deploying"; "error"].

(** ** src/core/sequencer.ts *)

Record Transaction : Type := mkTransaction {
  from : string;
  to : string;
  data : string;
  value : Z;
  nonce : number
}.

(** [ethers.JsonRpcProvider]: only the URL it is built from matters here. *)
Record Provider : Type := JsonRpcProvider { rpcUrl : string }.

Record Sequencer : Type := mkSequencer {
  chain : BaseChain;
  provider : Provider;
  queue : list Transaction
}.

Definition Sequencer_new (chain : BaseChain) (rpcUrl : string) : Sequencer :=
  {| chain := chain; provider := JsonRpcProvider rpcUrl; queue := [] |}.

(** [processBatch]; [now] is what [Date.now()] reads, in milliseconds. *)
Definition processBatch (now : N) (s : Sequencer) : completion string * Sequencer :=
  (Return ("tx_hash_" +:+ pretty now), s).

(** [this.queue.push(tx)] *)
Definition queue_push (tx : Transaction) (s : Sequencer) : Sequencer :=
  {| chain := chain s; provider := provider s; queue := queue s ++ [tx] |}.

Definition submitTransaction (tx : Transaction) (now : N) (s : Sequencer)
    : completion string * Sequencer :=
  let s := queue_push tx s in
  processBatch now s.

(** A run of submissions, each with the clock reading of its call: the
    returned values in order, and the final state. *)
Fixpoint submit_all (subs : list (Transaction * N)) (s : Sequencer)
    : list (completion string) * Sequencer :=
  match subs with
  | [] => ([], s)
  | (tx, now) :: rest =>
      let '(r, s') := submitTransaction tx now s in
      let '(rs, s'') := submit_all rest s' in
      (r :: rs, s'')
  end.

(** ** The sequencing rules of the specification

    The specification describes an admission rule and a batching policy
    for the sequencer.  They are written down here after its words, to be
    compared with [submitTransaction] and [processBatch] above. *)

Module SpecSequencer.

(** "Nonce strictly increasing per sender; duplicate/out-of-order nonce
    rejected at admission": a transaction is out of sequence when its
    sender already has a queued transaction whose nonce is not below
    the new one. *)
Definition out_of_sequence (q : list Transaction) (tx : Transaction) : Prop :=
  exists t, t ∈ q /\ from t = from tx /\ number_ltb (nonce t) (nonce tx) = false.

(** The queue with the arrival time of every transaction, and the
    batches cut so far, oldest first. *)
Record t : Type := mk {
  queue : list (Transaction * N);
  batches : list (list Transaction)
}.

Definition empty : t := mk [] [].

Section Policy.
Variable batchSize : nat.
Variable maxLatency : N.

(** "[queue.length >= batchSize] (checked first) or
    [age(oldest queued tx) > maxLatency] (checked second)". *)
Definition size_trigger (q : list (Transaction * N)) : bool :=
  (batchSize <=? length q)%nat.

Definition latency_trigger (now : N) (q : list (Transaction * N)) : bool :=
  match q with
  | (_, arrived) :: _ => (maxLatency <? now - arrived)%N
  | [] => false
  end.

Definition should_cut (now : N) (q : list (Transaction * N)) : bool :=
  size_trigger q || latency_trigger now q.

(** "Cutting a batch atomically removes exactly the eligible
    transactions (drained in order) into a new Batch." *)
Definition evaluate (now : N) (s : t) : t :=
  if should_cut now (queue s) then
    mk (drop batchSize (queue s))
       (batches s ++ [(take batchSize (queue s)).*1])
  else s.

(** The trigger is evaluated "on every enqueue and on a timer tick". *)
Definition submit (tx : Transaction) (now : N) (s : t) : t :=
  evaluate now (mk (queue s ++ [(tx, now)]) (batches s)).

Definition tick (now : N) (s : t) : t := evaluate now s.

Fixpoint submit_all (subs : list (Transaction * N)) (s : t) : t :=
  match subs with
  | [] => s
  | (tx, now) :: rest => submit_all rest (submit tx now s)
  end.
End Policy.

End SpecSequencer.

(** ** The bridge message queue *)

Module Bridge.

(** Modelled from the spec: the bridge wire message "{sourceChain,
    targetChain, payload bytes, proof, metadata{nonce, timestamp,
    gasLimit, deadline}}"; no source file declares it. *)
Record Metadata : Type := mkMetadata {
  nonce : number;
  timestamp : number;
  gasLimit : number;
  deadline : number
}.

Record BridgeMessage : Type := mkMessage {
  sourceChain : string;
  targetChain : string;
  payload : list Byte.byte;
  proof : string;
  metadata : Metadata
}.

(** Modelled from the spec: "QueuedMessage: {message, retryCount <=
    maxRetries(=3), status in {pending, sent, confirmed, failed}}". *)
Inductive MessageStatus : Type := pending | sent | confirmed | failed.

Record QueuedMessage : Type := mkQueued {
  message : BridgeMessage;
  retryCount : nat;
  status : MessageStatus
}.

(** Modelled from the spec: the state of the message queue, absent from
    the sources: the queued messages keyed by message id, and the log of
    the deliveries that were confirmed, oldest first. *)
Record MessageQueue : Type := mkQueue {
  queue : gmap string QueuedMessage;
  confirmations : list string
}.

Definition empty : MessageQueue := mkQueue ∅ [].

Definition maxRetries : nat := 3.

(** "Same logical message": the four fields the identity is made of. *)
Definition same_content (m m' : BridgeMessage) : Prop :=
  sourceChain m = sourceChain m' /\ targetChain m = targetChain m' /\
  payload m = payload m' /\ nonce (metadata m) = nonce (metadata m').

Section WithHash.
(** The hash function is a capability of the deployment. *)
Variable hash : string -> string -> list Byte.byte -> number -> string.

(** Modelled from the spec: [generateMessageId], which the repository
    only calls from a sketch in its documentation.  "Identity:
    deterministic id = hash(sourceChain, targetChain, payload, nonce)". *)
Definition generateMessageId (m : BridgeMessage) : string :=
  hash (sourceChain m) (targetChain m) (payload m) (nonce (metadata m)).

(** Modelled from the spec: [send], absent from the sources.
    "[send(message) -> messageId] is idempotent: resubmitting an
    identical logical message (same deterministic id) does not create a
    duplicate delivery obligation." *)
Definition send (m : BridgeMessage) (q : MessageQueue) : string * MessageQueue :=
  let messageId := generateMessageId m in
  match queue q !! messageId with
  | Some _ => (messageId, q)
  | None =>
      (messageId,
       mkQueue (<[messageId := mkQueued m 0 pending]> (queue q)) (confirmations q))
  end.

(** Modelled from the spec: one delivery attempt for a queued message,
    absent from the sources.  "Each queued message is retried up to
    [maxRetries] with backoff; exhaustion transitions status to
    [failed]"; an acknowledged attempt confirms the message.  A message
    that is [confirmed] or [failed] is not attempted again. *)
Definition attempt (messageId : string) (acknowledged : bool) (q : MessageQueue)
    : MessageQueue :=
  match queue q !! messageId with
  | None => q
  | Some qm =>
      match status qm with
      | confirmed | failed => q
      | pending | sent =>
          if acknowledged then
            mkQueue (<[messageId := mkQueued (message qm) (retryCount qm) confirmed]> (queue q))
                    (confirmations q ++ [messageId])
          else if (retryCount qm <? maxRetries)%nat then
            mkQueue (<[messageId := mkQueued (message qm) (S (retryCount qm)) sent]> (queue q))
                    (confirmations q)
          else
            mkQueue (<[messageId := mkQueued (message qm) (retryCount qm) failed]> (queue q))
                    (confirmations q)
      end
  end.

Inductive Op : Type :=
  | OpSend (m : BridgeMessage)
  | OpAttempt (messageId : string) (acknowledged : bool).

Definition apply (q : MessageQueue) (op : Op) : MessageQueue :=
  match op with
  | OpSend m => snd (send m q)
  | OpAttempt messageId acknowledged => attempt messageId acknowledged q
  end.

Definition run (ops : list Op) (q : MessageQueue) : MessageQueue :=
  foldl apply q ops.

(** How many confirmed deliveries the log holds for a message id. *)
Definition confirmed_deliveries (messageId : string) (q : MessageQueue) : nat :=
  length (filter (fun i => i = messageId) (confirmations q)).
End WithHash.

End Bridge.

(** ** The atomic transaction coordinator *)

Module Coordinator.

(** Modelled from the spec: "overall status in {preparing, prepared,
    committing, committed, aborting, aborted}". *)
Inductive TxStatus : Type :=
  | preparing | prepared | committing | committed | aborting | aborted.

(** Modelled from the spec: the cross-chain transaction as the
    coordinator tracks it, absent from the sources: the participant chains, the participants whose lock is held, those whose
    preparation proof was produced, those that have committed, and the
    overall status. *)
Record CrossChainTransaction : Type := mkTx {
  participants : list string;
  locks : list string;
  proofs : list string;
  committedOn : list string;
  status : TxStatus
}.

Definition begin (ps : list string) : CrossChainTransaction :=
  mkTx ps [] [] [] preparing.

(** Modelled from the spec: what the participant chains, which are
    outside the coordinator, answer: whether a lock is granted,
    whether a preparation proof is produced, whether a commit message is
    delivered and acknowledged in time. *)
Record Answers : Type := mkAnswers {
  lock_granted : string -> bool;
  proof_generated : string -> bool;
  commit_delivered : string -> bool
}.

Definition prepare_ok (a : Answers) (p : string) : bool :=
  lock_granted a p && proof_generated a p.

Definition with_status (s : TxStatus) (tx : CrossChainTransaction) : CrossChainTransaction :=
  mkTx (participants tx) (locks tx) (proofs tx) (committedOn tx) s.

(** Modelled from the spec: the abort path of the coordinator, absent
    from the sources.  "The coordinator transitions to [aborting],
    releases every lock already acquired (including on already-prepared
    participants), and reports failure."  The states it goes through,
    in order. *)
Definition abort (tx : CrossChainTransaction) : list CrossChainTransaction :=
  [ with_status aborting tx;
    mkTx (participants tx) [] [] (committedOn tx) aborting;
    mkTx (participants tx) [] [] (committedOn tx) aborted ].

(** Modelled from the spec: the prepare phase, of which the repository
    has only a sketch in its documentation.  "For each participant,
    acquire an exclusive lock on the state keys the transaction touches
    and request a preparation proof.  If any participant's lock
    acquisition or proof generation fails, the coordinator transitions to
    [aborting]".  The result is the list of states visited and whether
    the phase succeeded. *)
Fixpoint prepare (a : Answers) (todo : list string) (tx : CrossChainTransaction)
    : list CrossChainTransaction * bool :=
  match todo with
  | [] => ([with_status prepared tx], true)
  | p :: rest =>
      if lock_granted a p then
        let locked := mkTx (participants tx) (locks tx ++ [p]) (proofs tx)
                           (committedOn tx) (status tx) in
        if proof_generated a p then
          let proved := mkTx (participants tx) (locks locked) (proofs tx ++ [p])
                             (committedOn tx) (status tx) in
          let '(trace, ok) := prepare a rest proved in
          (locked :: proved :: trace, ok)
        else (locked :: abort locked, false)
      else (abort tx, false)
  end.

(** Modelled from the spec: the commit phase.  "Broadcast a commit
    message to every participant.  If delivery to any participant fails,
    the coordinator attempts rollback by sending compensating messages to
    participants that already committed."  Locks are released on
    reaching [committed] or [aborted]. *)
Fixpoint broadcast (a : Answers) (todo : list string) (tx : CrossChainTransaction)
    : list CrossChainTransaction :=
  match todo with
  | [] => [mkTx (participants tx) [] (proofs tx) (committedOn tx) committed]
  | p :: rest =>
      if commit_delivered a p then
        let done := mkTx (participants tx) (locks tx) (proofs tx)
                         (committedOn tx ++ [p]) (status tx) in
        done :: broadcast a rest done
      else abort tx
  end.

(** The last state of a non-empty trace. *)
Definition final (start : CrossChainTransaction) (trace : list CrossChainTransaction)
    : CrossChainTransaction :=
  List.last trace start.

(** Modelled from the spec: [executeAtomicTransaction], the state
    machine "preparing, then prepared or aborting, then committing and
    committed, or aborting and aborted".  All the states the transaction
    goes through, the first one included. *)
Definition execute (a : Answers) (ps : list string) : list CrossChainTransaction :=
  let start := begin ps in
  let '(trace, ok) := prepare a ps start in
  if ok then
    let ready := with_status committing (final start trace) in
    start :: trace ++ ready :: broadcast a ps ready
  else start :: trace.

End Coordinator.

(** ** The configuration object of the specification

    The fields a configuration must have and the bounds of each, as a
    predicate on the value: chain name, execution layer, base chain,
    sequencer mode, throughput bound, the three feature flags and the
    three consensus parameters. *)
Definition well_formed_config (v : JSValue) : Prop :=
  exists (name executionLayer baseChain sequencer algorithm : string)
         (tps blockTime validators : Q) (privacy interop dataAvailability : bool),
    (field v "name" = JString name /\ (1 <= String.length name <= 50)%nat) /\
    (field v "executionLayer" = JString executionLayer /\
       executionLayer ∈ ["ZK"; "Optimistic"]) /\
    (field v "baseChain" = JString baseChain /\
       baseChain ∈ ["Ethereum"; "Solana"; "Binance"]) /\
    (field v "sequencer" = JString sequencer /\
       sequencer ∈ ["Decentralized"; "Centralized"; "Hybrid"]) /\
    (field v "tps" = JNumber (Finite tps) /\ (1000 <= tps)%Q /\ (tps <= 100000)%Q) /\
    (field (field v "features") "privacy" = JBoolean privacy /\
     field (field v "features") "interop" = JBoolean interop /\
     field (field v "features") "dataAvailability" = JBoolean dataAvailability) /\
    (field (field v "consensus") "algorithm" = JString algorithm /\
     (field (field v "consensus") "blockTime" = JNumber (Finite blockTime) /\
        (0.1 <= blockTime)%Q /\ (blockTime <= 60)%Q) /\
     (field (field v "consensus") "validators" = JNumber (Finite validators) /\
        (1 <= validators)%Q /\ (validators <= 1000)%Q)).

(** [schema.parse(v)] returns instead of throwing. *)
Definition accepts (t : ZodType) (v : JSValue) : Prop :=
  exists out, parse t v = Return out.

(** ** Sample inputs *)

(** Updates of the throughput alone, below the lower bound and within
    the bounds, and the example configuration after the first. *)
Definition low_tps_patch : JSValue := JObject {[ "tps" := JNumber (Finite 999) ]}.
Definition higher_tps_patch : JSValue := JObject {[ "tps" := JNumber (Finite 2000) ]}.
Definition low_tps_config : JSValue := spread2 example_config low_tps_patch.

(** The chain the constructor builds from the example configuration. *)
Definition example_chain : Chain :=
  {| config := example_config;
     deploymentOptions := None;
     status := ChainStatus.mk "inactive" (Finite 0) (Finite 0) (Finite 0) (Finite 0) |}.

(** Options naming an environment the schema does not list. *)
Definition devnet_options : JSValue :=
  JObject (list_to_map
    [ ("environment", JString "devnet");
      ("autoScale", JBoolean true);
      ("monitoring", JBoolean true) ]).

(** Two transactions of one sender, with nonces 1 and 2, and a sequencer
    that has received nothing yet. *)
Definition tx1 : Transaction :=
  {| from := "0xa11ce"; to := "0xb0b"; data := "0x"; value := 10; nonce := Finite 1 |}.
Definition tx2 : Transaction :=
  {| from := "0xa11ce"; to := "0xb0b"; data := "0x"; value := 20; nonce := Finite 2 |}.
Definition fresh_sequencer : Sequencer := Sequencer_new Ethereum "http://localhost:8545".

(** ** The sequencing rules as claims about the code *)

(** The admission rule, said of [submitTransaction]: a transaction that is
    out of sequence makes the call fail and is not appended. *)
Definition submit_rejects_out_of_sequence : Prop :=
  forall (s : Sequencer) (tx : Transaction) (now : N),
    SpecSequencer.out_of_sequence (queue s) tx ->
    (exists e, fst (submitTransaction tx now s) = Throw e) /\
    queue (snd (submitTransaction tx now s)) = queue s.

(** The batching policy, said of the sequencer: after any run of
    submissions, the transactions still queued are those the policy has
    not yet cut into a batch. *)
Definition cuts_batches_as_specified (batchSize : nat) (maxLatency : N) : Prop :=
  forall subs : list (Transaction * N),
    queue (snd (submit_all subs fresh_sequencer))
    = (SpecSequencer.queue
         (SpecSequencer.submit_all batchSize maxLatency subs SpecSequencer.empty)).*1.



(** Membership of a given string in the list of status values. *)
Ltac in_status_values :=
  unfold status_values; apply list_elem_of_In; simpl; tauto.


(** ** Bridge and coordinator: invariants and sample inputs *)

(** The confirmation log lists no message twice, and every message it
    lists is [confirmed] in the queue. *)
Definition log_sound (q : Bridge.MessageQueue) : Prop :=
  NoDup (Bridge.confirmations q) /\
  forall messageId, messageId ∈ Bridge.confirmations q ->
    exists qm, Bridge.queue q !! messageId = Some qm /\
               Bridge.status qm = Bridge.confirmed.

(** A stand-in hash that joins the two chain names, for the examples. *)
Definition route_hash (source target : string) (payload : list Byte.byte) (nonce : number)
    : string :=
  source +:+ "->" +:+ target.

(** A message, and the same logical message sent again later: only the
    timestamp differs. *)
Definition message_a : Bridge.BridgeMessage :=
  Bridge.mkMessage "ethereum" "solana" [Byte.x01; Byte.x02] "proof"
    (Bridge.mkMetadata (Finite 7) (Finite 1000) (Finite 21000) (Finite 9000)).
Definition message_a_again : Bridge.BridgeMessage :=
  Bridge.mkMessage "ethereum" "solana" [Byte.x01; Byte.x02] "proof"
    (Bridge.mkMetadata (Finite 7) (Finite 2000) (Finite 21000) (Finite 9000)).

(** Three participants; every lock is granted and every commit delivered,
    but the second participant produces no preparation proof. *)
Definition three_chains : list string := ["ethereum"; "solana"; "binance"].
Definition solana_proof_fails : Coordinator.Answers :=
  Coordinator.mkAnswers (fun _ => true) (fun p => negb (String.eqb p "solana")) (fun _ => true).
Definition all_succeed : Coordinator.Answers :=
  Coordinator.mkAnswers (fun _ => true) (fun _ => true) (fun _ => true).

(** ** Further definitions: schemas, invariants of the chain, the form *)

(** A plain object: a value that is nothing but its own enumerable
    properties, as an object literal or a parsed JSON object is, so that
    the spread [{ ...v }] is a copy of [v].  An object that takes
    properties from a prototype, or hides some from enumeration, is not
    plain: zod would read from it properties that a spread does not
    copy. *)
Definition plain (v : JSValue) : Prop := JObject (own_props v) = v.

(** The properties an object schema reads, with the schema of each. *)
Definition shape_of (t : ZodType) : list (string * ZodType) :=
  match t with
  | z_object shape => shape
  | _ => []
  end.

(** The names of the top-level properties [chainConfigSchema] reads. *)
Definition chainConfigKeys : list string := (shape_of chainConfigSchema).*1.

(** What [deploymentOptionsSchema] asks of a value, as a predicate. *)
Definition well_formed_options (v : JSValue) : Prop :=
  exists (environment : string) (autoScale monitoring : bool),
    (field v "environment" = JString environment /\
       environment ∈ ["testnet"; "mainnet"]) /\
    field v "autoScale" = JBoolean autoScale /\
    field v "monitoring" = JBoolean monitoring.

(** What holds of a chain in every state it can reach: the four metrics
    are still the zeros of the constructor; deployment options are stored
    exactly when the status is no longer ['inactive'], and those stored
    pass validation; a suspended [deploy] has stored its options. *)
Definition chain_invariant (s : ChainSys) : Prop :=
  let c := chain_of s in
  (ChainStatus.blockHeight (status c) = Finite 0 /\
   ChainStatus.tps (status c) = Finite 0 /\
   ChainStatus.latency (status c) = Finite 0 /\
   ChainStatus.uptime (status c) = Finite 0) /\
  (deploymentOptions c = None <-> ChainStatus.status (status c) = "inactive") /\
  (forall o, deploymentOptions c = Some o -> validateDeploymentOptions o = true) /\
  (0 < pending s -> deploymentOptions c <> None).

(** Several operations in a row. *)
Inductive steps : ChainSys -> list ChainOp -> ChainSys -> Prop :=
  | steps_nil s : steps s [] s
  | steps_cons s op s' ops s'' :
      step s op s' -> steps s' ops s'' -> steps s (op :: ops) s''.

(** *** The form of the studio ([ChainBuilder], in [src/core/chain.ts])

    The component keeps one configuration in its state; every input of the
    form replaces it by a copy with one property changed; submitting only
    logs it. *)
Module ChainBuilder.

(** The initial value given to [useState]. *)
Definition initial : JSValue :=
  JObject (list_to_map
    [ ("name", JString "");
      ("executionLayer", JString "ZK");
      ("baseChain", JString "Ethereum");
      ("tps", JNumber (Finite 50000));
      ("privacyEnabled", JBoolean false);
      ("interopEnabled", JBoolean true) ]).

(** [{ ...config, k: v }] *)
Definition with_prop (config : JSValue) (k : string) (v : JSValue) : JSValue :=
  JObject (<[k := v]> (own_props config)).

(** The events of the form: a change of the name input, of either select,
    of either checkbox, and the submission. *)
Inductive Event : Type :=
  | NameChange (value : string)
  | ExecutionLayerChange (value : string)
  | BaseChainChange (value : string)
  | PrivacyChange (checked : bool)
  | InteropChange (checked : bool)
  | Submit.

(** The state after the handler of an event has run. *)
Definition handle (config : JSValue) (e : Event) : JSValue :=
  match e with
  | NameChange value => with_prop config "name" (JString value)
  | ExecutionLayerChange value => with_prop config "executionLayer" (JString value)
  | BaseChainChange value => with_prop config "baseChain" (JString value)
  | PrivacyChange checked => with_prop config "privacyEnabled" (JBoolean checked)
  | InteropChange checked => with_prop config "interopEnabled" (JBoolean checked)
  | Submit => config
  end.

Definition run (events : list Event) : JSValue := foldl handle initial events.

End ChainBuilder.

(** A configuration as the documentation writes it, with two sections the
    schema does not know, and updates used as sample inputs. *)
Definition scaling_section : JSValue :=
  JObject (list_to_map
    [ ("shards", JNumber (Finite 4));
      ("maxTxPerShard", JNumber (Finite 1000));
      ("shardingAlgorithm", JString "dynamic") ]).
Definition scaling_patch : JSValue := JObject {[ "scaling" := scaling_section ]}.
Definition privacy_only_patch : JSValue :=
  JObject {[ "features" := JObject {[ "privacy" := JBoolean false ]} ]}.
(** The configuration of the README's quick start: no [sequencer], no
    [consensus], and [features] without [dataAvailability]. *)
Definition quick_start_config : JSValue :=
  JObject (list_to_map
    [ ("name", JString "MyAwesomeL2");
      ("baseChain", JString "Ethereum");
      ("executionLayer", JString "ZK");
      ("tps", JNumber (Finite 50000));
      ("features", JObject (list_to_map
         [ ("privacy", JBoolean true); ("interop", JBoolean true) ])) ]).
Definition mainnet_options : JSValue :=
  JObject (list_to_map
    [ ("environment", JString "mainnet");
      ("autoScale", JBoolean false);
      ("monitoring", JBoolean true) ]).

(** * Properties *)

(** ** zod *)

Lemma accepts_string checks v :
  accepts (z_string checks) v <->
  exists s, v = JString s /\ forallb (string_check s) checks = true.
Proof.
  unfold accepts; split.
  - intros [out H]; destruct v; simpl in H; try discriminate.
    destruct (forallb _ _) eqn:E; [eauto | discriminate].
  - intros (s & -> & E); simpl; rewrite E; eauto.
Qed.

Lemma accepts_name v :
  accepts (z_string [str_min 1; str_max 50]) v <->
  exists s, v = JString s /\ (1 <= String.length s <= 50)%nat.
Proof.
  rewrite accepts_string; split; intros (s & -> & H); exists s; split; try done.
  - simpl in H. rewrite andb_true_r in H.
    apply andb_true_iff in H as [H1 H2].
    apply negb_true_iff in H1, H2.
    apply Nat.ltb_ge in H1, H2. lia.
  - simpl. rewrite andb_true_r. apply andb_true_iff.
    split; apply negb_true_iff, Nat.ltb_ge; lia.
Qed.

Lemma accepts_any_string v :
  accepts (z_string []) v <-> exists s, v = JString s.
Proof.
  rewrite accepts_string; split; [intros (s & -> & _) | intros (s & ->)]; eauto.
Qed.

Lemma accepts_enum values v :
  accepts (z_enum values) v <-> exists s, v = JString s /\ s ∈ values.
Proof.
  unfold accepts; split.
  - intros [out H]; destruct v; simpl in H; try discriminate.
    case_bool_decide; [eauto | discriminate].
  - intros (s & -> & E); simpl. rewrite bool_decide_eq_true_2; eauto.
Qed.

Lemma accepts_boolean v :
  accepts z_boolean v <-> exists b, v = JBoolean b.
Proof.
  unfold accepts; split.
  - intros [out H]; destruct v; simpl in H; try discriminate; eauto.
  - intros (b & ->); simpl; eauto.
Qed.

(** A number schema with both bounds accepts the finite numbers between
    them: [NaN] is no number for zod, and each infinity misses a bound. *)
Lemma accepts_bounded_number lo hi v :
  accepts (z_number [num_min lo; num_max hi]) v <->
  exists q, v = JNumber (Finite q) /\ (lo <= q)%Q /\ (q <= hi)%Q.
Proof.
  unfold accepts; split.
  - intros [out H]; destruct v as [| | |[q| |[]]| | | |]; simpl in H; try discriminate.
    rewrite !negb_involutive, andb_true_r in H.
    destruct (Qle_bool lo q) eqn:E1; [|discriminate].
    destruct (Qle_bool q hi) eqn:E2; [|discriminate].
    exists q; repeat split; by apply Qle_bool_iff.
  - intros (q & -> & H1 & H2); simpl.
    rewrite !negb_involutive, andb_true_r.
    apply Qle_bool_iff in H1, H2. rewrite H1, H2. eauto.
Qed.

Lemma parse_shape_Return props shape :
  (exists out, parse_shape parse props shape = Return out) <->
  Forall (fun kt => accepts kt.2 (get props kt.1)) shape.
Proof.
  induction shape as [|[k t] rest IH]; simpl.
  - split; [constructor | eauto].
  - rewrite Forall_cons, <- IH; unfold accepts; simpl; split.
    + intros [out H]. destruct (parse t (get props k)); [|discriminate].
      split; [eauto|]. destruct (parse_shape parse props rest); [eauto | discriminate].
    + intros [[v ->] [out ->]]; eauto.
Qed.

Lemma accepts_object shape v :
  accepts (z_object shape) v <->
  exists props, v = JObject props /\
    Forall (fun kt => accepts kt.2 (get props kt.1)) shape.
Proof.
  split.
  - intros [out H]; destruct v; simpl in H; try discriminate.
    eexists; split; [done|]. apply parse_shape_Return.
    change (fun t' v' => parse t' v') with parse in H.
    destruct (parse_shape parse props shape); [eauto | discriminate].
  - intros (props & -> & H). apply parse_shape_Return in H as [out H].
    exists (JObject out); simpl.
    change (fun t' v' => parse t' v') with parse. by rewrite H.
Qed.

(** An object schema reads its fields with [field]. *)
Lemma accepts_object_field shape v :
  shape <> [] ->
  accepts (z_object shape) v <->
  Forall (fun kt => accepts kt.2 (field v kt.1)) shape.
Proof.
  intros Hne; rewrite accepts_object; split.
  - intros (props & -> & H); done.
  - intros H. destruct v; try (by eexists; split; [done|]).
    all: destruct shape as [|[k t] rest]; [done|].
    all: apply Forall_cons in H as [[out H] _]; simpl in H.
    all: destruct t; simpl in H; discriminate.
Qed.

Lemma validateChainConfig_accepts v :
  validateChainConfig v = true <-> accepts chainConfigSchema v.
Proof.
  unfold validateChainConfig, accepts.
  destruct (parse chainConfigSchema v); split; eauto; try discriminate.
  intros [? ?]; discriminate.
Qed.

Lemma validateDeploymentOptions_accepts v :
  validateDeploymentOptions v = true <-> accepts deploymentOptionsSchema v.
Proof.
  unfold validateDeploymentOptions, accepts.
  destruct (parse deploymentOptionsSchema v); split; eauto; try discriminate.
  intros [? ?]; discriminate.
Qed.

(** The schema of the validator and the configuration object of the
    specification describe the same values. *)
Lemma accepts_chainConfigSchema v :
  accepts chainConfigSchema v <-> well_formed_config v.
Proof.
  unfold chainConfigSchema.
  rewrite accepts_object_field by done.
  rewrite !Forall_cons, Forall_nil; simpl.
  rewrite !accepts_object_field by done.
  rewrite !Forall_cons, !Forall_nil; simpl.
  rewrite accepts_name, !accepts_enum, !accepts_bounded_number,
    !accepts_boolean, accepts_any_string.
  unfold well_formed_config. split.
  - intros ((name & ? & ?) & (el & ? & ?) & (bc & ? & ?) & (sq & ? & ?) &
            (tps & ? & ? & ?) & ((pr & ?) & (io & ?) & (da & ?) & _) &
            ((alg & ?) & (bt & ? & ? & ?) & (va & ? & ? & ?) & _) & _).
    exists name, el, bc, sq, alg, tps, bt, va, pr, io, da.
    repeat split; try done; lia.
  - intros (name & el & bc & sq & alg & tps & bt & va & pr & io & da &
            (? & ?) & (? & ?) & (? & ?) & (? & ?) & (? & ? & ?) & (? & ? & ?) &
            (? & (? & ? & ?) & (? & ? & ?))).
    repeat split; eauto 6.
Qed.

Example example_config_valid : validateChainConfig example_config = true.
Proof. vm_compute. reflexivity. Qed.

Example example_options_valid : validateDeploymentOptions example_options = true.
Proof. vm_compute. reflexivity. Qed.

(** The README's "DeFiHub" configuration lacks most fields. *)
Example missing_fields_invalid :
  validateChainConfig (JObject {[ "name" := JString "DeFiHub" ]}) = false.
Proof. vm_compute. reflexivity. Qed.

Example low_tps_invalid : validateChainConfig low_tps_config = false.
Proof. vm_compute. reflexivity. Qed.

(** Validators need not be a whole number: the schema only bounds them. *)
Example fractional_validators_valid :
  validateChainConfig
    (spread2 example_config
       (JObject {[ "consensus" := JObject (list_to_map
          [ ("algorithm", JString "PoS");
            ("blockTime", JNumber (Finite 0.1));
            ("validators", JNumber (Finite 2.5)) ]) ]})) = true.
Proof. vm_compute. reflexivity. Qed.

(** ** Configuration schema *)

(** C5: [validateChainConfig] accepts a configuration if and only if it has
    every field of the configuration object (name, execution layer, base
    chain, sequencer mode, throughput, the three feature flags, the three
    consensus parameters), each within the bounds of the schema: name
    length 1 to 50, tps in [1000, 100000], blockTime in [0.1, 60],
    validators in [1, 1000], enumerations among their alternatives. *)
Theorem validateChainConfig_iff_fields_in_bounds (v : JSValue) :
  validateChainConfig v = true <-> well_formed_config v.
Proof.
  rewrite validateChainConfig_accepts.
  apply accepts_chainConfigSchema.
Qed.

Lemma validateChainConfig_iff_fields_in_bounds_witness :
  well_formed_config example_config.
Proof.
  apply (proj1 (validateChainConfig_iff_fields_in_bounds example_config)).
  vm_compute. reflexivity.
Defined.

(** ** Chain *)

Lemma not_well_formed_invalid cfg :
  ~ well_formed_config cfg -> validateChainConfig cfg = false.
Proof.
  intros H. destruct (validateChainConfig cfg) eqn:E; [|done].
  by apply validateChainConfig_accepts, accepts_chainConfigSchema in E.
Qed.

Lemma low_tps_not_well_formed : ~ well_formed_config low_tps_config.
Proof.
  intros H. apply accepts_chainConfigSchema, validateChainConfig_accepts in H.
  vm_compute in H. discriminate.
Qed.

(** The stored configuration of a reachable chain always validates. *)
Lemma reachable_config_valid cfg c0 s :
  Chain_new cfg = Return c0 -> reachable c0 s ->
  validateChainConfig (config (chain_of s)) = true.
Proof.
  intros Hnew; induction 1 as [|s op s' _ IH Hstep].
  - unfold Chain_new in Hnew. destruct (validateChainConfig cfg) eqn:E; [|done].
    simpl in Hnew. by injection Hnew as <-.
  - destruct Hstep as [o c n c' e H|o c n c' H|awaited c n|c n|c n|newConfig c n];
      simpl in *; try done.
    + unfold deploy_begin in H. destruct (validateDeploymentOptions o); simpl in H;
        [discriminate|]. by injection H as _ <-.
    + unfold deploy_begin in H. destruct (validateDeploymentOptions o); simpl in H;
        [|discriminate]. by injection H as <-.
    + by destruct awaited.
    + unfold updateConfig.
      by destruct (validateChainConfig (spread2 (config c) newConfig)) eqn:E.
Qed.

(** C4: constructing a [Chain] from a configuration that is not well
    formed (a numeric field out of bounds, an enumeration or the shape
    invalid) throws, and no chain state comes to exist; when the
    constructor returns a chain, the configuration is well formed and the
    chain holds it; and whatever is called on the chain afterwards, the
    configuration it holds is well formed. *)
Theorem Chain_new_only_for_valid_config (cfg : JSValue) :
  (~ well_formed_config cfg ->
     Chain_new cfg = Throw (Error "Invalid chain configuration")) /\
  (forall c, Chain_new cfg = Return c ->
     well_formed_config cfg /\ config c = cfg /\ deploymentOptions c = None) /\
  (forall c s, Chain_new cfg = Return c -> reachable c s ->
     well_formed_config (config (chain_of s))).
Proof.
  split; [|split].
  - intros H. unfold Chain_new. by rewrite (not_well_formed_invalid _ H).
  - intros c H. unfold Chain_new in H.
    destruct (validateChainConfig cfg) eqn:E; simpl in H; [|discriminate].
    injection H as <-. split; [|done].
    by apply accepts_chainConfigSchema, validateChainConfig_accepts.
  - intros c s Hnew Hs. apply accepts_chainConfigSchema, validateChainConfig_accepts.
    by apply (reachable_config_valid cfg c).
Qed.

Lemma Chain_new_only_for_valid_config_witness :
  Chain_new low_tps_config = Throw (Error "Invalid chain configuration") /\
  well_formed_config example_config.
Proof.
  split.
  - apply (proj1 (Chain_new_only_for_valid_config low_tps_config)).
    exact low_tps_not_well_formed.
  - eapply (proj1 (proj2 (Chain_new_only_for_valid_config example_config))).
    vm_compute. reflexivity.
Defined.

(** C9: when the merge of the stored configuration with the update fails
    validation, [updateConfig] throws and the chain, hence what
    [getConfig] returns, is exactly as before; when it passes, the call
    returns and every property the update does not mention keeps the
    value it had. *)
Theorem updateConfig_all_or_nothing (c : Chain) (newConfig : JSValue) :
  (validateChainConfig (spread2 (config c) newConfig) = false ->
     updateConfig newConfig c = (Throw (Error "Invalid configuration update"), c) /\
     fst (getConfig (snd (updateConfig newConfig c))) = fst (getConfig c)) /\
  (validateChainConfig (spread2 (config c) newConfig) = true ->
     fst (updateConfig newConfig c) = Return tt /\
     forall k, own_props newConfig !! k = None ->
       own_props (fst (getConfig (snd (updateConfig newConfig c)))) !! k
       = own_props (config c) !! k).
Proof.
  unfold updateConfig; split; intros ->; simpl; [done|].
  split; [done|]. intros k Hk. by rewrite lookup_union_r.
Qed.

Lemma updateConfig_all_or_nothing_witness :
  updateConfig low_tps_patch example_chain
  = (Throw (Error "Invalid configuration update"), example_chain) /\
  own_props (fst (getConfig (snd (updateConfig higher_tps_patch example_chain)))) !! "name"
  = Some (JString "MyL2Chain").
Proof.
  split.
  - apply (proj1 (updateConfig_all_or_nothing example_chain low_tps_patch)).
    vm_compute. reflexivity.
  - destruct (proj2 (updateConfig_all_or_nothing example_chain higher_tps_patch))
      as [_ Hkeep].
    + vm_compute. reflexivity.
    + rewrite (Hkeep "name"); vm_compute; reflexivity.
Defined.

(** C10: [deploy] with options that fail validation throws before it
    changes anything: the chain, with its status and its stored deployment
    options, is the one before the call, and no call is left suspended. *)
Theorem deploy_invalid_options_no_change (c : Chain) (options : JSValue) :
  validateDeploymentOptions options = false ->
  deploy options c = (Throw (Error "Invalid deployment options"), c) /\
  status (snd (deploy options c)) = status c /\
  deploymentOptions (snd (deploy options c)) = deploymentOptions c /\
  forall n s', step (mkSys c n) (OpDeployCall options) s' -> s' = mkSys c n.
Proof.
  intros H.
  assert (Hb : deploy_begin options c = (Throw (Error "Invalid deployment options"), c))
    by (unfold deploy_begin; by rewrite H).
  unfold deploy; rewrite Hb; simpl. repeat split.
  intros n s' Hs. inversion Hs; subst; congruence.
Qed.

Lemma deploy_invalid_options_no_change_witness :
  deploy devnet_options example_chain
  = (Throw (Error "Invalid deployment options"), example_chain).
Proof.
  apply (deploy_invalid_options_no_change example_chain devnet_options).
  vm_compute. reflexivity.
Defined.

Lemma Chain_new_inactive cfg c0 :
  Chain_new cfg = Return c0 -> ChainStatus.status (status c0) = "inactive".
Proof.
  unfold Chain_new. destruct (validateChainConfig cfg); simpl; [|discriminate].
  by intros [= <-].
Qed.

(** What each operation does to the [status] field. *)
Lemma step_status s op s' :
  step s op s' ->
  ChainStatus.status (status (chain_of s')) =
    match op with
    | OpDeployCall options =>
        if validateDeploymentOptions options then "deploying"
        else ChainStatus.status (status (chain_of s))
    | OpDeployResume (Return _) => "active"
    | OpDeployResume (Throw _) => "error"
    | _ => ChainStatus.status (status (chain_of s))
    end.
Proof.
  destruct 1 as [o c n c' e H|o c n c' H|awaited c n|c n|c n|newConfig c n]; simpl.
  - unfold deploy_begin in H.
    destruct (validateDeploymentOptions o); simpl in H; [discriminate|].
    by injection H as _ <-.
  - unfold deploy_begin in H.
    destruct (validateDeploymentOptions o); simpl in H; [|discriminate].
    by injection H as <-.
  - by destruct awaited.
  - done.
  - done.
  - unfold updateConfig. by destruct (validateChainConfig _).
Qed.

Lemma step_status_values s op s' :
  step s op s' ->
  ChainStatus.status (status (chain_of s)) ∈ status_values ->
  ChainStatus.status (status (chain_of s')) ∈ status_values.
Proof.
  intros Hstep Hin. rewrite (step_status _ _ _ Hstep).
  destruct op as [o|[]| | |]; try done.
  - destruct (validateDeploymentOptions o); [|done]. in_status_values.
  - in_status_values.
  - in_status_values.
Qed.

Lemma reachable_status_values c0 s :
  ChainStatus.status (status c0) ∈ status_values ->
  reachable c0 s ->
  ChainStatus.status (status (chain_of s)) ∈ status_values.
Proof.
  intros H0; induction 1 as [|s op s' _ IH Hstep]; [done|].
  by eapply step_status_values.
Qed.

(** C6: the constructor sets the status to ['inactive']; every snapshot
    that [getStatus] returns, in any state the chain can reach, has its
    status among inactive, deploying, active and error; an operation other
    than [deploy] leaves the status as it is; [deploy] with valid options
    moves it to ['deploying'], and when the call resumes, to ['active'] if
    the deployment succeeded and to ['error'] if it failed. *)
Theorem status_always_in_range (cfg : JSValue) (c0 : Chain) :
  Chain_new cfg = Return c0 ->
  ChainStatus.status (status c0) = "inactive" /\
  (forall s snapshot,
     reachable c0 s -> fst (getStatus (chain_of s)) = Return snapshot ->
     ChainStatus.status snapshot ∈ status_values) /\
  (forall s op s',
     reachable c0 s -> step s op s' -> is_deploy_op op = false ->
     status (chain_of s') = status (chain_of s)) /\
  (forall s op s',
     reachable c0 s -> step s op s' ->
     match op with
     | OpDeployCall options =>
         validateDeploymentOptions options = true ->
         ChainStatus.status (status (chain_of s')) = "deploying"
     | OpDeployResume (Return _) => ChainStatus.status (status (chain_of s')) = "active"
     | OpDeployResume (Throw _) => ChainStatus.status (status (chain_of s')) = "error"
     | _ => True
     end).
Proof.
  intros Hnew. pose proof (Chain_new_inactive _ _ Hnew) as H0.
  split; [done|]. split; [|split].
  - intros s snapshot Hr [= <-]. apply (reachable_status_values c0); [|done].
    rewrite H0. in_status_values.
  - intros s op s' _ Hstep Hop.
    destruct Hstep as [o c n c' e H|o c n c' H|awaited c n|c n|c n|newConfig c n];
      simpl in *; try done.
    unfold updateConfig. by destruct (validateChainConfig _).
  - intros s op s' _ Hstep. pose proof (step_status _ _ _ Hstep) as Hs.
    destruct op as [o|[]| | |]; try done.
    intros Hv. by rewrite Hv in Hs.
Qed.

Lemma status_always_in_range_witness :
  ChainStatus.status (status example_chain) = "inactive".
Proof.
  apply (proj1 (status_always_in_range example_config example_chain
                  ltac:(vm_compute; reflexivity))).
Defined.

(** A whole deployment of the example chain ends in ['active']. *)
Example deploy_example_active :
  ChainStatus.status (status (snd (deploy example_options example_chain))) = "active".
Proof. vm_compute. reflexivity. Qed.

(** ** Sequencer *)

Lemma submitTransaction_eq tx now s :
  submitTransaction tx now s
  = (Return ("tx_hash_" +:+ pretty now), queue_push tx s).
Proof. reflexivity. Qed.

Lemma submit_all_queue subs s :
  queue (snd (submit_all subs s)) = queue s ++ subs.*1.
Proof.
  revert s; induction subs as [|[tx now] rest IH]; intros s; simpl.
  - by rewrite app_nil_r.
  - specialize (IH (queue_push tx s)).
    destruct (submit_all rest (queue_push tx s)) as [rs s''] eqn:E; simpl in *.
    by rewrite IH, <- app_assoc.
Qed.


(** C1, as the code has it: [submitTransaction] validates nothing.  For
    every transaction, whatever its nonce and payload and whatever is
    queued already, the call returns the hash string and the transaction
    is appended to the tail of the queue; no call fails. *)
Theorem submitTransaction_accepts_everything
    (tx : Transaction) (now : N) (s : Sequencer) :
  fst (submitTransaction tx now s) = Return ("tx_hash_" +:+ pretty now) /\
  queue (snd (submitTransaction tx now s)) = queue s ++ [tx] /\
  chain (snd (submitTransaction tx now s)) = chain s /\
  provider (snd (submitTransaction tx now s)) = provider s.
Proof. by rewrite submitTransaction_eq. Qed.

(** C1, as stated, fails: submitting [tx1] a second time repeats a nonce
    of its sender, yet the call returns and the queue holds [tx1] twice. *)
Lemma submit_accepts_repeated_nonce :
  let s := snd (submitTransaction tx1 1000 fresh_sequencer) in
  SpecSequencer.out_of_sequence (queue s) tx1 /\
  fst (submitTransaction tx1 2000 s) = Return "tx_hash_2000" /\
  queue (snd (submitTransaction tx1 2000 s)) = [tx1; tx1] /\
  ~ submit_rejects_out_of_sequence.
Proof.
  simpl.
  assert (Hout : SpecSequencer.out_of_sequence [tx1] tx1).
  { exists tx1. split; [apply list_elem_of_here | by vm_compute]. }
  split; [done|]. split; [by vm_compute|]. split; [done|].
  intros Hclaim.
  destruct (Hclaim (queue_push tx1 fresh_sequencer) tx1 2000%N Hout) as [_ Hq].
  discriminate Hq.
Qed.

(** C2, as the code has it: every call of [submitTransaction] runs
    [processBatch] on the queue just extended, whatever its length and the
    age of its transactions; [processBatch] returns the string made of
    ["tx_hash_"] and the clock reading and leaves the sequencer, its
    queue included, untouched: nothing is drained and no batch is made,
    so the queue grows by one with every submission of a run. *)
Theorem processBatch_runs_always_drains_nothing
    (tx : Transaction) (now : N) (s : Sequencer) :
  submitTransaction tx now s = processBatch now (queue_push tx s) /\
  fst (processBatch now s) = Return ("tx_hash_" +:+ pretty now) /\
  snd (processBatch now s) = s /\
  forall subs : list (Transaction * N),
    length (queue (snd (submit_all subs s))) = length (queue s) + length subs.
Proof.
  repeat split. intros subs.
  by rewrite submit_all_queue, length_app, length_fmap.
Qed.

(** C2, as stated, fails on the specification's own scenario
    (batchSize 2, maxLatency 5 s, two transactions within a second): the
    policy cuts the batch [[tx1; tx2]] on the second submission and leaves
    the queue empty, and cuts nothing on the first; the code runs
    [processBatch] on both submissions and still queues both transactions. *)
Lemma queue_never_drained_at_batch_size :
  let subs := [(tx1, 0%N); (tx2, 500%N)] in
  SpecSequencer.submit_all 2 5000 subs SpecSequencer.empty
    = SpecSequencer.mk [] [[tx1; tx2]] /\
  SpecSequencer.should_cut 2 5000 0 [(tx1, 0%N)] = false /\
  submit_all subs fresh_sequencer
    = ([Return "tx_hash_0"; Return "tx_hash_500"],
       mkSequencer Ethereum (JsonRpcProvider "http://localhost:8545") [tx1; tx2]) /\
  ~ cuts_batches_as_specified 2 5000.
Proof.
  simpl. split; [by vm_compute|]. split; [by vm_compute|]. split; [by vm_compute|].
  intros Hclaim. specialize (Hclaim [(tx1, 0%N); (tx2, 500%N)]).
  vm_compute in Hclaim. discriminate Hclaim.
Qed.



(** The returned string is made from the clock, not from the transaction:
    the same transaction submitted at two instants gets two strings. *)
Example returned_hash_follows_clock :
  fst (submitTransaction tx1 1000 fresh_sequencer)
  <> fst (submitTransaction tx1 2000 fresh_sequencer).
Proof. vm_compute. discriminate. Qed.

Example two_submissions_in_order :
  queue (snd (submit_all [(tx2, 7%N); (tx1, 9%N)] fresh_sequencer)) = [tx2; tx1].
Proof. reflexivity. Qed.

(** ** Bridge message queue *)

Section BridgeProperties.
Variable hash : string -> string -> list Byte.byte -> number -> string.

Lemma generateMessageId_same_content m m' :
  Bridge.same_content m m' ->
  Bridge.generateMessageId hash m = Bridge.generateMessageId hash m'.
Proof.
  intros (Hs & Ht & Hp & Hn). unfold Bridge.generateMessageId.
  by rewrite Hs, Ht, Hp, Hn.
Qed.

Lemma send_id m q : fst (Bridge.send hash m q) = Bridge.generateMessageId hash m.
Proof. unfold Bridge.send. by destruct (Bridge.queue q !! _). Qed.

Lemma send_queued m q :
  is_Some (Bridge.queue (snd (Bridge.send hash m q)) !! Bridge.generateMessageId hash m).
Proof.
  unfold Bridge.send.
  destruct (Bridge.queue q !! Bridge.generateMessageId hash m) eqn:E; simpl.
  - by rewrite E.
  - by rewrite lookup_insert_eq.
Qed.

Lemma send_known m q :
  is_Some (Bridge.queue q !! Bridge.generateMessageId hash m) ->
  snd (Bridge.send hash m q) = q.
Proof. intros [qm E]. unfold Bridge.send. by rewrite E. Qed.

Lemma apply_keeps_queued op i q :
  is_Some (Bridge.queue q !! i) -> is_Some (Bridge.queue (Bridge.apply hash q op) !! i).
Proof.
  intros Hi. destruct op as [m|j acknowledged]; simpl.
  - unfold Bridge.send.
    destruct (Bridge.queue q !! Bridge.generateMessageId hash m) eqn:E; simpl; [done|].
    rewrite lookup_insert. by case_decide.
  - unfold Bridge.attempt. destruct (Bridge.queue q !! j) as [qm|] eqn:E; [|done].
    destruct (Bridge.status qm); try done;
      destruct acknowledged; try destruct (_ <? _)%nat; simpl;
      rewrite lookup_insert; by case_decide.
Qed.

Lemma run_keeps_queued ops i q :
  is_Some (Bridge.queue q !! i) -> is_Some (Bridge.queue (Bridge.run hash ops q) !! i).
Proof.
  revert q; induction ops as [|op ops IH]; intros q Hi; simpl; [done|].
  by apply IH, apply_keeps_queued.
Qed.

Lemma log_sound_empty : log_sound Bridge.empty.
Proof. split; [constructor | intros i Hi; inversion Hi]. Qed.

Lemma log_sound_send m q : log_sound q -> log_sound (snd (Bridge.send hash m q)).
Proof.
  intros [Hnd Hc]. unfold Bridge.send.
  destruct (Bridge.queue q !! Bridge.generateMessageId hash m) eqn:E; simpl; [done|].
  split; [done|]. simpl. intros i Hi. destruct (Hc i Hi) as (qm & Hq & Hs).
  exists qm. split; [|done]. rewrite lookup_insert_ne; [done|]. congruence.
Qed.

Lemma log_sound_attempt i acknowledged q :
  log_sound q -> log_sound (Bridge.attempt i acknowledged q).
Proof.
  intros [Hnd Hc]. unfold Bridge.attempt.
  destruct (Bridge.queue q !! i) as [qm|] eqn:E; [|done].
  assert (Hfresh : Bridge.status qm <> Bridge.confirmed -> i ∉ Bridge.confirmations q).
  { intros Hne Hi. destruct (Hc i Hi) as (qm' & Hq & Hs). congruence. }
  assert (Hother : forall j x, Bridge.status qm <> Bridge.confirmed ->
            j ∈ Bridge.confirmations q ->
            exists qm', <[i := x]> (Bridge.queue q) !! j = Some qm' /\
                        Bridge.status qm' = Bridge.confirmed).
  { intros j x Hne Hj. destruct (Hc j Hj) as (qm' & Hq & Hs).
    exists qm'. split; [|done]. rewrite lookup_insert_ne; [done|].
    intros ->. apply (Hfresh Hne Hj). }
  destruct (Bridge.status qm) eqn:Es; try done;
    destruct acknowledged; try destruct (_ <? _)%nat; split; simpl;
    try done; try (intros j Hj; by apply Hother).
  all: try (apply NoDup_app; split; [done|]; split; [|apply NoDup_singleton];
            intros j Hj ->%list_elem_of_singleton; by apply Hfresh in Hj).
  all: intros j [Hj| ->%list_elem_of_singleton]%elem_of_app; [by apply Hother|].
  all: rewrite lookup_insert_eq; eauto.
Qed.

Lemma log_sound_run ops q : log_sound q -> log_sound (Bridge.run hash ops q).
Proof.
  revert q; induction ops as [|[m|i acknowledged] ops IH]; intros q Hq; simpl; [done|..];
    apply IH; [by apply log_sound_send | by apply log_sound_attempt].
Qed.

Lemma NoDup_filter_eq_length (l : list string) (x : string) :
  NoDup l -> length (filter (fun i => i = x) l) <= 1.
Proof.
  induction 1 as [|y l Hy Hnd IH]; simpl; [lia|].
  rewrite filter_cons. case_decide as Hxy; simpl; [|done].
  subst y. destruct (filter (fun i => i = x) l) as [|z rest] eqn:E; [simpl; lia|].
  assert (Hz : z ∈ filter (fun i => i = x) l) by (rewrite E; left).
  apply list_elem_of_filter in Hz as [-> Hz]. done.
Qed.

(** C7: two calls of [send] with the same logical content (source chain,
    target chain, payload and nonce) return the same message id, the
    hash of these four fields; the second call, right after the first or
    after any further sends and delivery attempts, leaves the queue as it
    finds it, so it adds no delivery obligation; and in no run of sends
    and delivery attempts does a message id get more than one confirmed
    delivery. *)
Theorem send_twice_same_id_one_delivery (m m' : Bridge.BridgeMessage) :
  Bridge.same_content m m' ->
  (forall q q',
     fst (Bridge.send hash m q) = fst (Bridge.send hash m' q') /\
     fst (Bridge.send hash m q)
     = hash (Bridge.sourceChain m) (Bridge.targetChain m) (Bridge.payload m)
            (Bridge.nonce (Bridge.metadata m))) /\
  (forall q ops,
     let later := Bridge.run hash ops (snd (Bridge.send hash m q)) in
     snd (Bridge.send hash m' later) = later) /\
  (forall ops messageId,
     Bridge.confirmed_deliveries messageId (Bridge.run hash ops Bridge.empty) <= 1).
Proof.
  intros Hsame. pose proof (generateMessageId_same_content _ _ Hsame) as Hid.
  split; [|split].
  - intros q q'. by rewrite !send_id, Hid.
  - intros q ops. simpl. apply send_known. rewrite <- Hid.
    apply run_keeps_queued, send_queued.
  - intros ops i. apply NoDup_filter_eq_length.
    apply (log_sound_run ops Bridge.empty log_sound_empty).
Qed.
End BridgeProperties.

Lemma send_twice_same_id_one_delivery_witness :
  fst (Bridge.send route_hash message_a Bridge.empty)
  = fst (Bridge.send route_hash message_a_again Bridge.empty).
Proof.
  destruct (send_twice_same_id_one_delivery route_hash message_a message_a_again)
    as [Hid _].
  - unfold Bridge.same_content. simpl. repeat split; reflexivity.
  - exact (proj1 (Hid Bridge.empty Bridge.empty)).
Defined.

(** A resent message that is then acknowledged twice is confirmed once. *)
Example resend_confirmed_once :
  Bridge.confirmed_deliveries "ethereum->solana"
    (Bridge.run route_hash
       [ Bridge.OpSend message_a;
         Bridge.OpAttempt "ethereum->solana" true;
         Bridge.OpSend message_a_again;
         Bridge.OpAttempt "ethereum->solana" true ]
       Bridge.empty) = 1.
Proof. vm_compute. reflexivity. Qed.

(** ** Atomic transaction coordinator *)

(** The abort path commits nobody, passes through [aborting] and ends
    [aborted] with every lock released and no preparation left. *)
Lemma abort_trace tx :
  Forall (fun st => Coordinator.committedOn st = Coordinator.committedOn tx /\
                    (Coordinator.status st = Coordinator.aborting \/
                     Coordinator.status st = Coordinator.aborted))
         (Coordinator.abort tx) /\
  Exists (fun st => Coordinator.status st = Coordinator.aborting) (Coordinator.abort tx) /\
  forall d, Coordinator.locks (List.last (Coordinator.abort tx) d) = [] /\
            Coordinator.proofs (List.last (Coordinator.abort tx) d) = [] /\
            Coordinator.status (List.last (Coordinator.abort tx) d) = Coordinator.aborted.
Proof.
  split; [|split].
  - unfold Coordinator.abort. repeat (constructor; [simpl; auto|]). constructor.
  - apply Exists_cons_hd. done.
  - done.
Qed.

(** When some participant that is still to be prepared fails, the prepare
    phase reports failure; along the way nobody commits, the status is the
    initial one until it becomes [aborting] and then [aborted], and at the
    end no lock is held and no preparation is kept. *)
Lemma prepare_failure a todo tx :
  (exists p, p ∈ todo /\ Coordinator.prepare_ok a p = false) ->
  exists trace,
    Coordinator.prepare a todo tx = (trace, false) /\
    Forall (fun st => Coordinator.committedOn st = Coordinator.committedOn tx /\
                      (Coordinator.status st = Coordinator.status tx \/
                       Coordinator.status st = Coordinator.aborting \/
                       Coordinator.status st = Coordinator.aborted)) trace /\
    Exists (fun st => Coordinator.status st = Coordinator.aborting) trace /\
    forall d, Coordinator.locks (List.last trace d) = [] /\
              Coordinator.proofs (List.last trace d) = [] /\
              Coordinator.status (List.last trace d) = Coordinator.aborted.
Proof.
  revert tx; induction todo as [|p rest IH]; intros tx (q & Hq & Hfail).
  - inversion Hq.
  - simpl. unfold Coordinator.prepare_ok in Hfail.
    destruct (Coordinator.lock_granted a p) eqn:Hlock.
    + destruct (Coordinator.proof_generated a p) eqn:Hproof.
      * assert (Hrest : exists p', p' ∈ rest /\ Coordinator.prepare_ok a p' = false).
        { apply elem_of_cons in Hq as [->|Hq].
          - rewrite Hlock, Hproof in Hfail. discriminate.
          - exists q. by split. }
        destruct (IH (Coordinator.mkTx (Coordinator.participants tx)
                        (Coordinator.locks tx ++ [p]) (Coordinator.proofs tx ++ [p])
                        (Coordinator.committedOn tx) (Coordinator.status tx)) Hrest)
          as (trace & Htrace & Hall & Hex & Hlast).
        simpl. rewrite Htrace.
        eexists; split; [done|]. simpl in Hall. split; [|split].
        -- repeat (constructor; [simpl; auto|]). done.
        -- by do 2 apply Exists_cons_tl.
        -- intros d. destruct trace; [inversion Hex|]. apply (Hlast d).
      * destruct (abort_trace
                    (Coordinator.mkTx (Coordinator.participants tx)
                       (Coordinator.locks tx ++ [p]) (Coordinator.proofs tx)
                       (Coordinator.committedOn tx) (Coordinator.status tx)))
          as (Hall & Hex & Hlast).
        eexists; split; [done|]. split; [|split].
        -- constructor; [simpl; auto|].
           eapply Forall_impl; [exact Hall|]. simpl. intros st [? ?]. auto.
        -- by apply Exists_cons_tl.
        -- intros d. apply (Hlast d).
    + destruct (abort_trace tx) as (Hall & Hex & Hlast).
      eexists; split; [done|]. split; [|split]; [|done|done].
      eapply Forall_impl; [exact Hall|]. simpl. intros st [? ?]. auto.
Qed.

(** C8: if the prepare of any participant fails (its lock is refused or
    its preparation proof is not produced), then in no state the
    transaction goes through has any participant committed, nor is the
    transaction ever [committing] or [committed]; the coordinator passes
    through [aborting] and ends [aborted], holding no lock and keeping no
    preparation. *)
Theorem prepare_failure_commits_nobody (a : Coordinator.Answers) (ps : list string) :
  (exists p, p ∈ ps /\ Coordinator.prepare_ok a p = false) ->
  Forall (fun st => Coordinator.committedOn st = [] /\
                    Coordinator.status st <> Coordinator.committed /\
                    Coordinator.status st <> Coordinator.committing)
         (Coordinator.execute a ps) /\
  Exists (fun st => Coordinator.status st = Coordinator.aborting)
         (Coordinator.execute a ps) /\
  Coordinator.locks (Coordinator.final (Coordinator.begin ps) (Coordinator.execute a ps)) = [] /\
  Coordinator.proofs (Coordinator.final (Coordinator.begin ps) (Coordinator.execute a ps)) = [] /\
  Coordinator.status (Coordinator.final (Coordinator.begin ps) (Coordinator.execute a ps))
  = Coordinator.aborted.
Proof.
  intros Hfail. unfold Coordinator.execute.
  destruct (prepare_failure a ps (Coordinator.begin ps) Hfail)
    as (trace & -> & Hall & Hex & Hlast).
  split; [|split].
  - constructor; [done|]. eapply Forall_impl; [exact Hall|]. simpl.
    intros st [-> Hst]. split; [done|].
    destruct Hst as [-> | [-> | ->]]; done.
  - by apply Exists_cons_tl.
  - unfold Coordinator.final. destruct trace; [inversion Hex|].
    apply (Hlast (Coordinator.begin ps)).
Qed.

Lemma prepare_failure_commits_nobody_witness :
  Coordinator.status
    (Coordinator.final (Coordinator.begin three_chains)
       (Coordinator.execute solana_proof_fails three_chains))
  = Coordinator.aborted.
Proof.
  apply (prepare_failure_commits_nobody solana_proof_fails three_chains).
  exists "solana". split; [|vm_compute; reflexivity].
  apply list_elem_of_In. simpl. tauto.
Defined.

(** When every participant prepares and every commit is delivered, the
    transaction ends [committed] on all of them, its locks released. *)
Example all_succeed_commits :
  let last_state :=
    Coordinator.final (Coordinator.begin three_chains)
      (Coordinator.execute all_succeed three_chains) in
  Coordinator.status last_state = Coordinator.committed /\
  Coordinator.committedOn last_state = three_chains /\
  Coordinator.locks last_state = [].
Proof. vm_compute. done. Qed.

(** * Further properties of the code *)

(** ** Validators *)

Lemma accepts_deploymentOptionsSchema v :
  accepts deploymentOptionsSchema v <-> well_formed_options v.
Proof.
  unfold deploymentOptionsSchema.
  rewrite accepts_object_field by done.
  rewrite !Forall_cons, Forall_nil; simpl.
  rewrite accepts_enum, !accepts_boolean.
  unfold well_formed_options. split.
  - intros ((env & ? & ?) & (a & ?) & (m & ?) & _). exists env, a, m. done.
  - intros (env & a & m & (? & ?) & ? & ?). repeat split; eauto.
Qed.

(** X1: [validateDeploymentOptions] accepts a value exactly when its
    [environment] is the string ['testnet'] or ['mainnet'] and its
    [autoScale] and [monitoring] are booleans. *)
Theorem validateDeploymentOptions_iff_fields (v : JSValue) :
  validateDeploymentOptions v = true <-> well_formed_options v.
Proof.
  rewrite validateDeploymentOptions_accepts.
  apply accepts_deploymentOptionsSchema.
Qed.

Lemma validateDeploymentOptions_iff_fields_witness :
  well_formed_options mainnet_options.
Proof.
  apply (proj1 (validateDeploymentOptions_iff_fields mainnet_options)).
  vm_compute. reflexivity.
Defined.

(** Validation reads a value through the properties of the schema only. *)
Lemma well_formed_config_fields v w :
  (forall k, k ∈ chainConfigKeys -> field v k = field w k) ->
  well_formed_config v -> well_formed_config w.
Proof.
  intros H. unfold well_formed_config.
  assert (Hk : forall k, In k chainConfigKeys -> field v k = field w k)
    by (intros k Hk; by apply H, list_elem_of_In).
  rewrite <- (Hk "name"), <- (Hk "executionLayer"), <- (Hk "baseChain"),
    <- (Hk "sequencer"), <- (Hk "tps"), <- (Hk "features"), <- (Hk "consensus");
    [done|simpl; tauto..].
Qed.

Lemma validateChainConfig_fields v w :
  (forall k, k ∈ chainConfigKeys -> field v k = field w k) ->
  validateChainConfig v = validateChainConfig w.
Proof.
  intros H.
  destruct (validateChainConfig v) eqn:Ev, (validateChainConfig w) eqn:Ew; try done.
  - apply validateChainConfig_accepts, accepts_chainConfigSchema in Ev.
    apply (well_formed_config_fields v w H) in Ev.
    apply accepts_chainConfigSchema, validateChainConfig_accepts in Ev. congruence.
  - apply validateChainConfig_accepts, accepts_chainConfigSchema in Ew.
    apply (well_formed_config_fields w v) in Ew; [|intros k Hk; symmetry; by apply H].
    apply accepts_chainConfigSchema, validateChainConfig_accepts in Ew. congruence.
Qed.

Lemma insert_unknown_key_verdict props k x :
  k ∉ chainConfigKeys ->
  validateChainConfig (JObject (<[k := x]> props)) = validateChainConfig (JObject props).
Proof.
  intros Hk. apply validateChainConfig_fields; intros k' Hk'; simpl; unfold get.
  rewrite lookup_insert_ne; [done|]. by intros ->.
Qed.

(** X2: [validateChainConfig] ignores the properties the schema does not
    name: adding, replacing or removing such a property in an object does
    not change the verdict. *)
Theorem validateChainConfig_ignores_unknown_keys
    (props : gmap string JSValue) (k : string) (x : JSValue) :
  k ∉ chainConfigKeys ->
  validateChainConfig (JObject (<[k := x]> props)) = validateChainConfig (JObject props) /\
  validateChainConfig (JObject (delete k props)) = validateChainConfig (JObject props).
Proof.
  intros Hk; split; [by apply insert_unknown_key_verdict|].
  apply validateChainConfig_fields; intros k' Hk'; simpl; unfold get.
  rewrite lookup_delete_ne; [done|]. by intros ->.
Qed.

Lemma validateChainConfig_ignores_unknown_keys_witness :
  validateChainConfig (JObject (<["scaling" := scaling_section]> (own_props example_config)))
  = validateChainConfig (JObject (own_props example_config)).
Proof.
  apply (validateChainConfig_ignores_unknown_keys (own_props example_config)
           "scaling" scaling_section).
  intros H. apply list_elem_of_In in H. vm_compute in H.
  repeat (destruct H as [H|H]; [discriminate H|]). exact H.
Defined.

(** ** Chain: configuration updates *)

Lemma undefined_not_accepted t : ~ accepts t JUndefined.
Proof. intros [out H]. destruct t; simpl in H; discriminate. Qed.

(** A valid configuration is an object that has every property of the
    schema. *)
Lemma valid_config_object u :
  validateChainConfig u = true ->
  exists props, u = JObject props /\
    forall k, k ∈ chainConfigKeys -> is_Some (props !! k).
Proof.
  intros H. apply validateChainConfig_accepts, accepts_object in H
    as (props & -> & Hall).
  exists props. split; [done|]. intros k Hk.
  apply list_elem_of_fmap in Hk as ([k' t] & -> & Hkt).
  rewrite Forall_forall in Hall. specialize (Hall _ Hkt). simpl in *.
  unfold get in Hall. destruct (props !! k'); [eauto|].
  by apply undefined_not_accepted in Hall.
Qed.

Lemma plain_object v : plain v -> exists props, v = JObject props.
Proof. intros H. exists (own_props v). by symmetry. Qed.

(** The configuration of a chain built from a plain object is a plain
    object in every state the chain can reach. *)
Lemma reachable_config_plain cfg c0 s :
  plain cfg -> Chain_new cfg = Return c0 -> reachable c0 s ->
  plain (config (chain_of s)).
Proof.
  intros Hp Hnew; induction 1 as [|s op s' _ IH Hstep].
  - unfold Chain_new in Hnew. destruct (validateChainConfig cfg); [|done].
    simpl in Hnew. by injection Hnew as <-.
  - destruct Hstep as [o c n c' e H|o c n c' H|awaited c n|c n|c n|newConfig c n];
      simpl in *; try done.
    + unfold deploy_begin in H. destruct (validateDeploymentOptions o); simpl in H;
        [discriminate|]. by injection H as _ <-.
    + unfold deploy_begin in H. destruct (validateDeploymentOptions o); simpl in H;
        [|discriminate]. by injection H as <-.
    + by destruct awaited.
    + unfold updateConfig.
      by destruct (validateChainConfig (spread2 (config c) newConfig)).
Qed.

(** X3: an update that is a plain object and itself a valid configuration
    is accepted by [updateConfig] whatever configuration the chain holds,
    and the new configuration has the update's value for every property
    of the schema.  (For a plain object the properties the schema reads
    are its own, the ones the spread copies.) *)
Theorem updateConfig_valid_config_replaces (c : Chain) (u : JSValue) :
  plain u ->
  validateChainConfig u = true ->
  fst (updateConfig u c) = Return tt /\
  forall k, k ∈ chainConfigKeys ->
    field (fst (getConfig (snd (updateConfig u c)))) k = field u k.
Proof.
  intros Hplain Hu. unfold plain in Hplain.
  assert (Hf : forall k, k ∈ chainConfigKeys ->
            field (spread2 (config c) u) k = field u k).
  { intros k Hk. rewrite <- Hplain at 2. simpl. unfold get.
    destruct (own_props u !! k) as [x|] eqn:Hx.
    - by rewrite (lookup_union_Some_l _ _ _ _ Hx).
    - exfalso. rewrite <- Hplain in Hu.
      destruct (valid_config_object _ Hu) as (props & [= <-] & Hkeys).
      destruct (Hkeys k Hk) as [y Hy]. congruence. }
  unfold updateConfig.
  rewrite (validateChainConfig_fields _ _ Hf), Hu. simpl. split; [done|].
  intros k Hk. by apply Hf.
Qed.

Lemma updateConfig_valid_config_replaces_witness :
  fst (updateConfig example_config
         (mkChain low_tps_config None (status example_chain))) = Return tt.
Proof.
  apply (updateConfig_valid_config_replaces
           (mkChain low_tps_config None (status example_chain)) example_config).
  - reflexivity.
  - vm_compute. reflexivity.
Defined.

Lemma merge_with_invalid_property_invalid
    (c : Chain) (u : JSValue) (k : string) (t : ZodType) (x : JSValue) :
  (k, t) ∈ shape_of chainConfigSchema ->
  own_props u !! k = Some x ->
  ~ accepts t x ->
  validateChainConfig (spread2 (config c) u) = false.
Proof.
  intros Hkt Hx Hrej.
  destruct (validateChainConfig (spread2 (config c) u)) eqn:E; [|done].
  exfalso. apply validateChainConfig_accepts, accepts_object in E
    as (props & [= <-] & Hall).
  rewrite Forall_forall in Hall. specialize (Hall _ Hkt). simpl in Hall.
  unfold get in Hall. by rewrite (lookup_union_Some_l _ _ _ _ Hx) in Hall.
Qed.

(** X4: the merge is shallow and validated as a whole.  An update that
    gives a property of the schema a value its schema rejects (a
    [features] object lacking a flag, a [tps] that is [undefined]) makes
    [updateConfig] throw, and the chain is left as it was, whatever the
    stored configuration holds for that property. *)
Theorem updateConfig_invalid_property_throws
    (c : Chain) (u : JSValue) (k : string) (t : ZodType) (x : JSValue) :
  (k, t) ∈ shape_of chainConfigSchema ->
  own_props u !! k = Some x ->
  ~ accepts t x ->
  updateConfig u c = (Throw (Error "Invalid configuration update"), c).
Proof.
  intros Hkt Hx Hrej. unfold updateConfig.
  by rewrite (merge_with_invalid_property_invalid c u k t x Hkt Hx Hrej).
Qed.

Lemma updateConfig_invalid_property_throws_witness :
  updateConfig privacy_only_patch example_chain
  = (Throw (Error "Invalid configuration update"), example_chain).
Proof.
  apply (updateConfig_invalid_property_throws example_chain privacy_only_patch
           "features"
           (z_object [ ("privacy", z_boolean); ("interop", z_boolean);
                       ("dataAvailability", z_boolean) ])
           (JObject {[ "privacy" := JBoolean false ]})).
  - apply list_elem_of_In. simpl. tauto.
  - vm_compute. reflexivity.
  - intros [out H]. vm_compute in H. discriminate H.
Defined.

(** X5: on a chain built by the constructor from a plain object, in any
    state it can reach, an update without own properties (an empty
    object, [null], [undefined], a number, a boolean) is accepted and
    leaves the chain as it was, its configuration being replaced by a
    copy of itself. *)
Theorem updateConfig_without_properties_changes_nothing
    (cfg : JSValue) (c0 : Chain) (s : ChainSys) (u : JSValue) :
  plain cfg ->
  Chain_new cfg = Return c0 -> reachable c0 s ->
  own_props u = ∅ ->
  updateConfig u (chain_of s) = (Return tt, chain_of s).
Proof.
  intros Hp Hnew Hs Hu.
  pose proof (reachable_config_valid _ _ _ Hnew Hs) as Hv.
  pose proof (reachable_config_plain _ _ _ Hp Hnew Hs) as Hplain.
  assert (Hcopy : spread2 (config (chain_of s)) u = config (chain_of s)).
  { unfold spread2. rewrite Hu, (left_id_L ∅ (∪)). exact Hplain. }
  unfold updateConfig. rewrite Hcopy, Hv. simpl.
  by destruct (chain_of s).
Qed.

Lemma updateConfig_without_properties_changes_nothing_witness :
  updateConfig JNull example_chain = (Return tt, example_chain).
Proof.
  apply (updateConfig_without_properties_changes_nothing
           example_config example_chain (mkSys example_chain 0) JNull).
  - reflexivity.
  - vm_compute. reflexivity.
  - apply reachable_new.
  - reflexivity.
Defined.

(** X6: two updates that are accepted one after the other amount to the
    single update by their spread: it is accepted too and leaves the same
    chain. *)
Theorem updateConfig_twice_is_update_by_spread
    (c c1 c2 : Chain) (u1 u2 : JSValue) :
  updateConfig u1 c = (Return tt, c1) ->
  updateConfig u2 c1 = (Return tt, c2) ->
  updateConfig (spread2 u1 u2) c = (Return tt, c2).
Proof.
  unfold updateConfig. intros H1 H2.
  destruct (validateChainConfig (spread2 (config c) u1)); simpl in H1; [|discriminate].
  injection H1 as <-. simpl in H2.
  assert (Heq : spread2 (config c) (spread2 u1 u2)
                = spread2 (spread2 (config c) u1) u2).
  { unfold spread2. simpl. by rewrite (assoc_L (∪)). }
  rewrite Heq.
  destruct (validateChainConfig (spread2 (spread2 (config c) u1) u2));
    simpl in *; [|discriminate].
  by injection H2 as <-.
Qed.

Lemma updateConfig_twice_is_update_by_spread_witness :
  updateConfig (spread2 higher_tps_patch scaling_patch) example_chain
  = (Return tt,
     snd (updateConfig scaling_patch (snd (updateConfig higher_tps_patch example_chain)))).
Proof.
  apply (updateConfig_twice_is_update_by_spread example_chain
           (snd (updateConfig higher_tps_patch example_chain))).
  - vm_compute. reflexivity.
  - vm_compute. reflexivity.
Defined.

(** X7: validation does not strip.  On a chain built by the constructor
    from a plain object, an update that only sets a property the schema
    does not name is accepted, the property is stored in the configuration
    with its value, and every other property keeps its value. *)
Theorem updateConfig_stores_unknown_property
    (cfg : JSValue) (c0 : Chain) (s : ChainSys) (k : string) (x : JSValue) :
  plain cfg ->
  Chain_new cfg = Return c0 -> reachable c0 s ->
  k ∉ chainConfigKeys ->
  fst (updateConfig (JObject {[ k := x ]}) (chain_of s)) = Return tt /\
  field (fst (getConfig (snd (updateConfig (JObject {[ k := x ]}) (chain_of s))))) k = x /\
  forall k', k' <> k ->
    field (fst (getConfig (snd (updateConfig (JObject {[ k := x ]}) (chain_of s))))) k'
    = field (config (chain_of s)) k'.
Proof.
  intros Hp Hnew Hs Hk.
  pose proof (reachable_config_valid _ _ _ Hnew Hs) as Hv.
  pose proof (reachable_config_plain _ _ _ Hp Hnew Hs) as Hplain.
  unfold plain in Hplain.
  set (P := own_props (config (chain_of s))) in *.
  assert (Hmerge : spread2 (config (chain_of s)) (JObject {[ k := x ]})
                   = JObject (<[k := x]> P)).
  { unfold spread2. simpl. by rewrite <- insert_union_singleton_l. }
  unfold updateConfig. rewrite Hmerge.
  rewrite (insert_unknown_key_verdict P k x Hk), Hplain, Hv.
  simpl. unfold get. split; [done|]. split.
  - by rewrite lookup_insert_eq.
  - intros k' Hne. rewrite lookup_insert_ne by done. by rewrite <- Hplain.
Qed.

Lemma updateConfig_stores_unknown_property_witness :
  field (fst (getConfig (snd (updateConfig scaling_patch example_chain)))) "scaling"
  = scaling_section.
Proof.
  apply (updateConfig_stores_unknown_property example_config example_chain
           (mkSys example_chain 0) "scaling" scaling_section).
  - reflexivity.
  - vm_compute. reflexivity.
  - apply reachable_new.
  - intros H. apply list_elem_of_In in H. vm_compute in H.
    repeat (destruct H as [H|H]; [discriminate H|]). exact H.
Defined.

(** ** Chain: life cycle *)

Lemma chain_invariant_new cfg c0 :
  Chain_new cfg = Return c0 -> chain_invariant (mkSys c0 0).
Proof.
  unfold Chain_new. destruct (validateChainConfig cfg); simpl; [|discriminate].
  intros [= <-]. unfold chain_invariant; simpl.
  repeat split; try done; lia.
Qed.

Lemma chain_invariant_step s op s' :
  step s op s' -> chain_invariant s -> chain_invariant s'.
Proof.
  unfold chain_invariant.
  destruct 1 as [o c n c' e H|o c n c' H|awaited c n|c n|c n|newConfig c n];
    simpl; intros (Hm & Hiff & Hval & Hpend).
  - unfold deploy_begin in H.
    destruct (validateDeploymentOptions o); simpl in H; [discriminate|].
    by injection H as _ <-.
  - unfold deploy_begin in H.
    destruct (validateDeploymentOptions o) eqn:Ho; simpl in H; [|discriminate].
    injection H as <-. simpl. split; [done|].
    split; [split; intros; discriminate|].
    split; [by intros o' [= <-] | done].
  - assert (Hsome : deploymentOptions c <> None) by (apply Hpend; lia).
    destruct awaited; simpl; (split; [done|]); (split; [split; done|]);
      (split; [done|]); done.
  - done.
  - done.
  - unfold updateConfig. by destruct (validateChainConfig _).
Qed.

Lemma reachable_chain_invariant cfg c0 s :
  Chain_new cfg = Return c0 -> reachable c0 s -> chain_invariant s.
Proof.
  intros Hnew; induction 1 as [|s op s' _ IH Hstep].
  - by apply (chain_invariant_new cfg).
  - by apply (chain_invariant_step s op).
Qed.

(** X8: no operation of the class ever updates the metrics: in every
    state a chain can reach, the snapshot [getStatus] returns has
    [blockHeight], [tps], [latency] and [uptime] equal to 0, also once the
    chain is ['active']. *)
Theorem metrics_stay_zero (cfg : JSValue) (c0 : Chain) (s : ChainSys)
    (snapshot : ChainStatus.t) :
  Chain_new cfg = Return c0 -> reachable c0 s ->
  fst (getStatus (chain_of s)) = Return snapshot ->
  ChainStatus.blockHeight snapshot = Finite 0 /\
  ChainStatus.tps snapshot = Finite 0 /\
  ChainStatus.latency snapshot = Finite 0 /\
  ChainStatus.uptime snapshot = Finite 0.
Proof.
  intros Hnew Hs [= <-].
  by destruct (reachable_chain_invariant _ _ _ Hnew Hs) as [Hm _].
Qed.

Lemma metrics_stay_zero_witness :
  ChainStatus.tps (status (snd (deploy example_options example_chain))) = Finite 0.
Proof.
  apply (metrics_stay_zero example_config example_chain
           (mkSys (snd (deploy example_options example_chain)) 0)
           (status (snd (deploy example_options example_chain)))).
  - vm_compute. reflexivity.
  - apply (reachable_step _ (mkSys (snd (deploy_begin example_options example_chain)) 1)
             (OpDeployResume (Return tt))).
    + apply (reachable_step _ (mkSys example_chain 0) (OpDeployCall example_options)).
      * apply reachable_new.
      * apply step_deploy_suspended. vm_compute. reflexivity.
    + apply (step_deploy_resumed (Return tt)).
  - reflexivity.
Defined.

(** X9: a chain is ['inactive'] exactly as long as no call of [deploy] has
    passed validation: in every reachable state the status is ['inactive']
    if and only if no deployment options are stored, so the status never
    returns to ['inactive']; and the options stored are always ones that
    pass validation, the options of rejected calls never being kept. *)
Theorem inactive_iff_no_options_stored (cfg : JSValue) (c0 : Chain) (s : ChainSys) :
  Chain_new cfg = Return c0 -> reachable c0 s ->
  (ChainStatus.status (status (chain_of s)) = "inactive"
   <-> deploymentOptions (chain_of s) = None) /\
  (forall o, deploymentOptions (chain_of s) = Some o -> well_formed_options o) /\
  (forall op s', step s op s' ->
     ChainStatus.status (status (chain_of s)) <> "inactive" ->
     ChainStatus.status (status (chain_of s')) <> "inactive").
Proof.
  intros Hnew Hs.
  destruct (reachable_chain_invariant _ _ _ Hnew Hs) as (_ & Hiff & Hval & _).
  split; [by symmetry|]. split.
  - intros o Ho. by apply accepts_deploymentOptionsSchema,
      validateDeploymentOptions_accepts, Hval.
  - intros op s' Hstep Hne. rewrite (step_status _ _ _ Hstep).
    destruct op as [o|[]| | |]; try done.
    by destruct (validateDeploymentOptions o).
Qed.

Lemma inactive_iff_no_options_stored_witness :
  ChainStatus.status (status example_chain) = "inactive"
  <-> deploymentOptions example_chain = None.
Proof.
  apply (inactive_iff_no_options_stored example_config example_chain
           (mkSys example_chain 0)).
  - vm_compute. reflexivity.
  - apply reachable_new.
Defined.

(** Operations other than [deploy] leave status and stored options. *)
Lemma steps_between s ops s' :
  steps s ops s' -> Forall (fun op => is_deploy_op op = false) ops ->
  status (chain_of s') = status (chain_of s) /\
  deploymentOptions (chain_of s') = deploymentOptions (chain_of s) /\
  pending s' = pending s.
Proof.
  induction 1 as [s|s op s1 ops s2 Hstep _ IH]; [done|].
  intros [Hop Hops]%Forall_cons. destruct (IH Hops) as (-> & -> & ->).
  destruct Hstep as [o c n c' e H|o c n c' H|awaited c n|c n|c n|newConfig c n];
    simpl in *; try done.
  unfold updateConfig. by destruct (validateChainConfig _).
Qed.

(** X10: [deploy] has no guard on the current status.  From any state, a
    call with valid options followed, after any number of [getStatus],
    [getConfig] and [updateConfig] calls, by its resumption on success,
    shows ['deploying'] until it resumes and then ['active'], with the
    options of the call stored and no more calls suspended than before. *)
Theorem deploy_completes_active
    (s s1 s2 s3 : ChainSys) (options : JSValue) (ops : list ChainOp) :
  validateDeploymentOptions options = true ->
  Forall (fun op => is_deploy_op op = false) ops ->
  step s (OpDeployCall options) s1 ->
  steps s1 ops s2 ->
  step s2 (OpDeployResume (Return tt)) s3 ->
  ChainStatus.status (status (chain_of s2)) = "deploying" /\
  ChainStatus.status (status (chain_of s3)) = "active" /\
  deploymentOptions (chain_of s3) = Some options /\
  pending s3 = pending s.
Proof.
  intros Hv Hops H1 H12 H3.
  destruct (steps_between _ _ _ H12 Hops) as (Hst & Hopt & Hp).
  pose proof (step_status _ _ _ H1) as Hs1. simpl in Hs1. rewrite Hv in Hs1.
  pose proof (step_status _ _ _ H3) as Hs3. simpl in Hs3.
  split; [by rewrite Hst|]. split; [done|].
  inversion H1 as [o c n c' e Hb|o c n c' Hb| | | |]; subst.
  - unfold deploy_begin in Hb. rewrite Hv in Hb. discriminate.
  - unfold deploy_begin in Hb. rewrite Hv in Hb. injection Hb as <-.
    simpl in *. inversion H3; subst. simpl in *. split; [congruence|].
    congruence.
Qed.

Lemma deploy_completes_active_witness :
  ChainStatus.status
    (status (chain_of
       (mkSys (snd (deploy_settle (Return tt)
                      (snd (updateConfig higher_tps_patch
                              (snd (deploy_begin example_options example_chain))))))
              0)))
  = "active".
Proof.
  apply (deploy_completes_active
           (mkSys example_chain 0)
           (mkSys (snd (deploy_begin example_options example_chain)) 1)
           (mkSys (snd (updateConfig higher_tps_patch
                          (snd (deploy_begin example_options example_chain)))) 1)
           _ example_options [OpUpdateConfig higher_tps_patch]).
  - vm_compute. reflexivity.
  - repeat constructor.
  - apply step_deploy_suspended. vm_compute. reflexivity.
  - eapply steps_cons; [apply step_updateConfig | apply steps_nil].
  - apply (step_deploy_resumed (Return tt)).
Defined.

(** X11: calls of [deploy] do not exclude one another.  When a second
    call with valid options arrives while a first is suspended, the first
    resumption sets the status to ['active'] although one call is still
    suspended, and the options stored are those of the second call. *)
Theorem overlapping_deploys_active_while_pending
    (c : Chain) (n : nat) (o1 o2 : JSValue) :
  validateDeploymentOptions o1 = true ->
  validateDeploymentOptions o2 = true ->
  exists s3,
    steps (mkSys c n)
          [OpDeployCall o1; OpDeployCall o2; OpDeployResume (Return tt)] s3 /\
    pending s3 = S n /\
    ChainStatus.status (status (chain_of s3)) = "active" /\
    deploymentOptions (chain_of s3) = Some o2.
Proof.
  intros H1 H2. eexists. split.
  - eapply steps_cons.
    { apply step_deploy_suspended. unfold deploy_begin. by rewrite H1. }
    eapply steps_cons.
    { apply step_deploy_suspended. unfold deploy_begin. by rewrite H2. }
    eapply steps_cons; [apply (step_deploy_resumed (Return tt)) | apply steps_nil].
  - done.
Qed.

Lemma overlapping_deploys_active_while_pending_witness :
  exists s3,
    steps (mkSys example_chain 0)
          [OpDeployCall example_options; OpDeployCall mainnet_options;
           OpDeployResume (Return tt)] s3 /\
    pending s3 = 1 /\
    ChainStatus.status (status (chain_of s3)) = "active" /\
    deploymentOptions (chain_of s3) = Some mainnet_options.
Proof.
  apply (overlapping_deploys_active_while_pending example_chain 0
           example_options mainnet_options).
  - vm_compute. reflexivity.
  - vm_compute. reflexivity.
Defined.

(** ** The form of the studio *)

(** Whatever the form receives, its configuration is an object without a
    [sequencer] property. *)
Lemma ChainBuilder_no_sequencer events config :
  (exists props, config = JObject props /\ props !! "sequencer" = None) ->
  exists props, foldl ChainBuilder.handle config events = JObject props /\
                props !! "sequencer" = None.
Proof.
  revert config; induction events as [|e events IH]; intros config Hc; [done|].
  simpl. apply IH. destruct Hc as (props & -> & Hp).
  destruct e; simpl; unfold ChainBuilder.with_prop; simpl;
    try (eexists; split; [done|]; by rewrite lookup_insert_ne).
  eauto.
Qed.

(** X12: the configuration the form of the studio builds never passes
    [validateChainConfig], whatever is typed, selected, ticked or
    submitted: no handler ever sets [sequencer] (nor [features] or
    [consensus]), so building a [Chain] from it always throws. *)
Theorem ChainBuilder_config_never_valid (events : list ChainBuilder.Event) :
  validateChainConfig (ChainBuilder.run events) = false /\
  Chain_new (ChainBuilder.run events) = Throw (Error "Invalid chain configuration").
Proof.
  assert (H : validateChainConfig (ChainBuilder.run events) = false).
  { destruct (ChainBuilder_no_sequencer events ChainBuilder.initial)
      as (props & Hrun & Hp).
    { eexists; split; [done|]. vm_compute. reflexivity. }
    unfold ChainBuilder.run. rewrite Hrun.
    destruct (validateChainConfig (JObject props)) eqn:E; [|done].
    apply validateChainConfig_accepts, accepts_chainConfigSchema in E.
    destruct E as (? & ? & ? & sq & ? & ? & ? & ? & ? & ? & ? &
                   _ & _ & _ & (Hsq & _) & _).
    simpl in Hsq. unfold get in Hsq. rewrite Hp in Hsq. discriminate. }
  split; [done|]. unfold Chain_new. by rewrite H.
Qed.

(** ** Sequencer: the returned string *)

(** X13: the string [submitTransaction] returns identifies the clock
    reading of the call and nothing else: two calls return the same
    string exactly when they read the same millisecond, whatever the
    transactions submitted and the states of the sequencers. *)
Theorem returned_hash_identifies_clock_only
    (tx tx' : Transaction) (now now' : N) (s s' : Sequencer) :
  fst (submitTransaction tx now s) = fst (submitTransaction tx' now' s')
  <-> now = now'.
Proof.
  rewrite !submitTransaction_eq. simpl. split.
  - intros [= H]. change (pretty now = pretty now') in H. by apply (inj pretty) in H.
  - by intros ->.
Qed.

Lemma returned_hash_identifies_clock_only_witness :
  fst (submitTransaction tx1 1000 fresh_sequencer)
  = fst (submitTransaction tx2 1000 (queue_push tx1 fresh_sequencer)).
Proof.
  apply (proj2 (returned_hash_identifies_clock_only tx1 tx2 1000 1000
                  fresh_sequencer (queue_push tx1 fresh_sequencer))).
  reflexivity.
Defined.

(** ** Required properties *)

(** X14: every top-level property of the schema is required.  A value in
    which one of [name], [executionLayer], [baseChain], [sequencer],
    [tps], [features], [consensus] is missing or [undefined] (a value that
    is no object has none of them) fails [validateChainConfig]: the
    constructor throws on it, and [updateConfig] throws and leaves the
    chain as it was when the update sets such a property to [undefined]. *)
Theorem schema_properties_are_required (v : JSValue) (k : string) :
  k ∈ chainConfigKeys ->
  field v k = JUndefined ->
  validateChainConfig v = false /\
  Chain_new v = Throw (Error "Invalid chain configuration") /\
  forall c u, own_props u !! k = Some JUndefined ->
    updateConfig u c = (Throw (Error "Invalid configuration update"), c).
Proof.
  intros Hk Hf.
  assert (Hv : validateChainConfig v = false).
  { destruct (validateChainConfig v) eqn:E; [|done].
    destruct (valid_config_object v E) as (props & -> & Hkeys).
    destruct (Hkeys k Hk) as [x Hx]. simpl in Hf. unfold get in Hf.
    rewrite Hx in Hf. simpl in Hf. subst x.
    apply validateChainConfig_accepts, accepts_object in E as (props' & [= <-] & Hall).
    apply list_elem_of_fmap in Hk as ([k' t] & -> & Hkt).
    rewrite Forall_forall in Hall. specialize (Hall _ Hkt). simpl in *.
    unfold get in Hall. rewrite Hx in Hall.
    by apply undefined_not_accepted in Hall. }
  split; [done|]. split; [unfold Chain_new; by rewrite Hv|].
  intros c u Hu.
  apply list_elem_of_fmap in Hk as ([k' t] & -> & Hkt).
  unfold updateConfig.
  by rewrite (merge_with_invalid_property_invalid c u k' t JUndefined Hkt Hu
                (undefined_not_accepted t)).
Qed.

Lemma schema_properties_are_required_witness :
  Chain_new quick_start_config = Throw (Error "Invalid chain configuration").
Proof.
  apply (schema_properties_are_required quick_start_config "sequencer").
  - apply list_elem_of_In. vm_compute. tauto.
  - vm_compute. reflexivity.
Defined.
